(** * PixelProxy: storage names, the default file, and the controller

  A shallow embedding of the parts of [danjacques/pixelproxy] that decide
  the properties stated at the end of this file:

  - [applications/pixelproxy/storage] (display names, file IDs, the
    persisted default file) and [util.CreateViaTempMove];
  - [applications/pixelproxy/controller.go] (the controller state machine);
  - the discovery callback of [applications/pixelproxy/app.go].

  Go strings are byte strings: they are Rocq [string]s, whose characters
  are the 256 [ascii] values.  A rune is a code point, an [N]. *)

From stdpp Require Import gmap gmultiset strings list.
From Stdlib Require Import Ascii HexadecimalString.
From Stdlib Require HexadecimalPos HexadecimalN OrderedTypeEx.

Open Scope string_scope.
Open Scope N_scope.

(** A rune, as produced by ranging over a string: never negative. *)
Abbreviation rune := N (only parsing).

Definition byte_val (c : ascii) : N := N_of_ascii c.
Definition byte_str (b : N) : string := String (ascii_of_N b) "".
Definition between (lo hi x : N) : bool := (lo <=? x) && (x <=? hi).

(** ** The pieces of Go's standard library the storage package calls *)

Module utf8.

Definition RuneError : rune := 0xFFFD.
Definition RuneSelf : N := 0x80.
Definition MaxRune : rune := 0x10FFFF.

(** The [first] table of [unicode/utf8]: for a leading byte, the length
    of the sequence and the accepted range of the second byte. [None]
    is an invalid leading byte. ASCII bytes are handled before it. *)
Definition first (b0 : N) : option (nat * N * N) :=
  if between 0xC2 0xDF b0 then Some (2%nat, 0x80, 0xBF)
  else if b0 =? 0xE0 then Some (3%nat, 0xA0, 0xBF)
  else if between 0xE1 0xEC b0 then Some (3%nat, 0x80, 0xBF)
  else if b0 =? 0xED then Some (3%nat, 0x80, 0x9F)
  else if between 0xEE 0xEF b0 then Some (3%nat, 0x80, 0xBF)
  else if b0 =? 0xF0 then Some (4%nat, 0x90, 0xBF)
  else if between 0xF1 0xF3 b0 then Some (4%nat, 0x80, 0xBF)
  else if b0 =? 0xF4 then Some (4%nat, 0x80, 0x8F)
  else None.

Definition cont (b : N) : bool := between 0x80 0xBF b.
Definition low6 (b : N) : N := N.land b 0x3F.

Definition rune2 (b0 b1 : N) : rune :=
  N.lor (N.shiftl (N.land b0 0x1F) 6) (low6 b1).
Definition rune3 (b0 b1 b2 : N) : rune :=
  N.lor (N.shiftl (N.land b0 0x0F) 12) (N.lor (N.shiftl (low6 b1) 6) (low6 b2)).
Definition rune4 (b0 b1 b2 b3 : N) : rune :=
  N.lor (N.shiftl (N.land b0 0x07) 18)
    (N.lor (N.shiftl (low6 b1) 12) (N.lor (N.shiftl (low6 b2) 6) (low6 b3))).

(** A decoded rune together with the bytes it was read from. *)
Definition token : Type := rune * string.

(** What [for _, r := range s] yields, with the bytes of each step: an
    invalid or truncated sequence yields [RuneError] and advances by one
    byte. *)
Fixpoint tokens (s : string) : list token :=
  match s with
  | "" => []
  | String c0 s1 =>
    let b0 := byte_val c0 in
    let bad := (RuneError, String c0 "") :: tokens s1 in
    if b0 <? RuneSelf then (b0, String c0 "") :: tokens s1 else
    match first b0 with
    | None => bad
    | Some (sz, lo, hi) =>
      match s1 with
      | "" => bad
      | String c1 s2 =>
        let b1 := byte_val c1 in
        if negb (between lo hi b1) then bad else
        if (sz =? 2)%nat then (rune2 b0 b1, String c0 (String c1 "")) :: tokens s2 else
        match s2 with
        | "" => bad
        | String c2 s3 =>
          let b2 := byte_val c2 in
          if negb (cont b2) then bad else
          if (sz =? 3)%nat
          then (rune3 b0 b1 b2, String c0 (String c1 (String c2 ""))) :: tokens s3 else
          match s3 with
          | "" => bad
          | String c3 s4 =>
            let b3 := byte_val c3 in
            if negb (cont b3) then bad else
            (rune4 b0 b1 b2 b3,
             String c0 (String c1 (String c2 (String c3 "")))) :: tokens s4
          end
        end
      end
    end
  end.

Definition runes (s : string) : list rune := fst <$> tokens s.

Definition untokens (ts : list token) : string :=
  foldr (λ t acc, t.2 +:+ acc) "" ts.

(** [utf8.AppendRune]: the bytes written for a rune. *)
Definition EncodeRune (r : rune) : string :=
  let enc3 (r : rune) :=
    byte_str (N.lor 0xE0 (N.shiftr r 12)) +:+
    byte_str (N.lor 0x80 (low6 (N.shiftr r 6))) +:+
    byte_str (N.lor 0x80 (low6 r)) in
  if r <=? 0x7F then byte_str r
  else if r <=? 0x7FF then
    byte_str (N.lor 0xC0 (N.shiftr r 6)) +:+ byte_str (N.lor 0x80 (low6 r))
  else if (MaxRune <? r) || between 0xD800 0xDFFF r then enc3 RuneError
  else if r <=? 0xFFFF then enc3 r
  else
    byte_str (N.lor 0xF0 (N.shiftr r 18)) +:+
    byte_str (N.lor 0x80 (low6 (N.shiftr r 12))) +:+
    byte_str (N.lor 0x80 (low6 (N.shiftr r 6))) +:+
    byte_str (N.lor 0x80 (low6 r)).

End utf8.

Module unicode.

Definition MaxASCII : rune := 0x7F.
Definition MaxLatin1 : rune := 0xFF.

(** [unicode.IsSpace]: the Latin-1 switch, then the White_Space table. *)
Definition IsSpace (r : rune) : bool :=
  if r <=? MaxLatin1 then
    between 0x09 0x0D r || (r =? 0x20) || (r =? 0x85) || (r =? 0xA0)
  else
    (r =? 0x1680) || between 0x2000 0x200A r || between 0x2028 0x2029 r
    || (r =? 0x202F) || (r =? 0x205F) || (r =? 0x3000).

(** [unicode.IsLetter] and [unicode.IsNumber] on Latin-1, from the
    [properties] table.  Above Latin-1 Go consults the Letter and Number
    range tables, which this development does not carry: the two
    functions answer [false] there, and nothing below asks them, since
    [isValid] returns before the call for a rune above [MaxASCII]. *)
Definition IsLetter (r : rune) : bool :=
  if r <=? MaxLatin1 then
    between 0x41 0x5A r || between 0x61 0x7A r
    || (r =? 0xAA) || (r =? 0xB5) || (r =? 0xBA)
    || between 0xC0 0xD6 r || between 0xD8 0xF6 r || between 0xF8 0xFF r
  else false.

Definition IsNumber (r : rune) : bool :=
  if r <=? MaxLatin1 then
    between 0x30 0x39 r || between 0xB2 0xB3 r || (r =? 0xB9)
    || between 0xBC 0xBE r
  else false.

End unicode.

Module gostrings.

(** [strings.TrimSpace]: the string without its leading and trailing
    runes for which [unicode.IsSpace] holds. *)
Definition is_space_token (t : utf8.token) : bool := unicode.IsSpace t.1.

Fixpoint drop_spaces (ts : list utf8.token) : list utf8.token :=
  match ts with
  | t :: ts' => if is_space_token t then drop_spaces ts' else ts
  | [] => []
  end.

Definition trim_tokens (ts : list utf8.token) : list utf8.token :=
  rev (drop_spaces (rev (drop_spaces ts))).

Definition TrimSpace (s : string) : string :=
  utf8.untokens (trim_tokens (utf8.tokens s)).

(** [fmt.Sprintf("%x", r)] for a rune that is not negative. *)
Definition hex (r : rune) : string := NilZero.string_of_uint (N.to_hex_uint r).

(** [strings.HasSuffix] and [strings.TrimSuffix]. *)
Definition HasSuffix (s suffix : string) : bool :=
  (String.length suffix <=? String.length s)%nat
  && String.eqb
       (String.substring (String.length s - String.length suffix)
          (String.length suffix) s)
       suffix.

Definition TrimSuffix (s suffix : string) : string :=
  if HasSuffix s suffix
  then String.substring 0 (String.length s - String.length suffix) s
  else s.

End gostrings.

(** ** Errors and the file system *)

(** An operating-system failure that does not depend on the modelled state
  (I/O error, permission, full disk).  "Does not exist" is never injected:
  it is decided by the state. *)
Inductive fault : Set := EIO | EACCES | ENOSPC.

(** Go [error] values; [nil] is [None]. *)
Inductive error : Set :=
| ENOENT                                  (* os.IsNotExist holds *)
| EEXIST
| EFAULT (f : fault)
| errNotRunning                           (* controller.go *)
| errNoSourceFiles                        (* errors.New("no source files") *)
| errStream (f : fault)                   (* a streamfile failure *)
| Wrap (msg : string) (cause : error).    (* errors.Wrap *)

#[global] Instance fault_eq_dec : EqDecision fault.
Proof. solve_decision. Defined.
#[global] Instance error_eq_dec : EqDecision error.
Proof. solve_decision. Defined.

Module filepath.

(** [filepath.Join dir elem] for a clean [dir] and one element without
    separators: the empty directory is skipped and the root directory
    brings its own separator. *)
Definition Join (dir elem : string) : string :=
  if decide (dir = "") then elem
  else if decide (dir = "/") then "/" +:+ elem
  else dir +:+ "/" +:+ elem.

(** [os.IsPathSeparator] on Unix. *)
Definition IsPathSeparator (c : ascii) : bool := Ascii.eqb c "/".

(** [filepath.Ext]: the loop with [i = n - 1], scanning down from the end
    of the path. *)
Fixpoint Ext_from (path : string) (n : nat) : string :=
  match n with
  | O => ""
  | S i =>
    match String.get i path with
    | None => ""
    | Some c =>
      if IsPathSeparator c then ""
      else if Ascii.eqb c "."
           then String.substring i (String.length path - i) path
           else Ext_from path i
    end
  end.

Definition Ext (path : string) : string := Ext_from path (String.length path).

End filepath.

Module os.

(** Regular files by path. *)
Abbreviation files := (gmap string string).

Definition IsNotExist (e : error) : bool :=
  match e with ENOENT => true | _ => false end.

Definition injected (flt : option fault) : option error := EFAULT <$> flt.

(** [ioutil.ReadFile] *)
Definition ReadFile (flt : option fault) (fs : files) (path : string)
  : string * option error :=
  match flt with
  | Some f => ("", Some (EFAULT f))
  | None =>
    match fs !! path with
    | Some content => (content, None)
    | None => ("", Some ENOENT)
    end
  end.

(** [os.Remove] *)
Definition Remove (flt : option fault) (fs : files) (path : string)
  : files * option error :=
  match flt with
  | Some f => (fs, Some (EFAULT f))
  | None =>
    match fs !! path with
    | Some _ => (delete path fs, None)
    | None => (fs, Some ENOENT)
    end
  end.

(** [os.Rename]: the new path is replaced in one step, or nothing
    happens. *)
Definition Rename (flt : option fault) (fs : files) (oldpath newpath : string)
  : files * option error :=
  match flt with
  | Some f => (fs, Some (EFAULT f))
  | None =>
    match fs !! oldpath with
    | Some content => (<[newpath := content]> (delete oldpath fs), None)
    | None => (fs, Some ENOENT)
    end
  end.

(** [ioutil.TempFile dir prefix]: creates an empty file named
    [prefix] followed by a random suffix, exclusively.  [rnd] is the
    suffix the call settles on; a name that is taken is an error. *)
Definition TempFile (flt : option fault) (rnd : string) (fs : files)
    (dir pfx : string) : files * (string + error) :=
  match flt with
  | Some f => (fs, inr (EFAULT f))
  | None =>
    let name := filepath.Join dir (pfx +:+ rnd) in
    match fs !! name with
    | Some _ => (fs, inr EEXIST)
    | None => (<[name := ""]> fs, inl name)
    end
  end.

(** [File.Write] of package os: appends to the open file.  A failing write may
    have written the first [n] bytes. *)
Definition Write (flt : option (nat * fault)) (fs : files) (fd : string)
    (data : string) : files * option error :=
  let old := default "" (fs !! fd) in
  match flt with
  | Some (n, f) => (<[fd := old +:+ String.substring 0 n data]> fs, Some (EFAULT f))
  | None => (<[fd := old +:+ data]> fs, None)
  end.

(** [File.Close] of package os *)
Definition Close (flt : option fault) : option error := injected flt.

(** An [os.FileInfo], as far as the callers look at it. *)
Record FileInfo : Set := {
  Name : string;
  IsDir : bool;
}.

(** The error of one [Readdir]: [io.EOF], or another one. *)
Inductive readdir_error : Set :=
| EOF
| EREAD (f : fault).

(** What a directory answers to the calls made on it: [os.Open], [Stat]
    (an error, or whether it is a directory), and each [Readdir] in turn
    (the entries it returns, and its error). *)
Record dir : Set := {
  on_open : option error;
  on_stat : error + bool;
  reads : list (list FileInfo * option readdir_error);
}.

End os.

(** ** util/atomicfile.go *)

Module util.

(** The outcome of each system call [CreateViaTempMove] makes. *)
Record io : Set := {
  on_tempfile : option fault;
  on_write : option (nat * fault);
  on_close : option fault;
  on_rename : option fault;
  on_cleanup : option fault;    (* the deferred os.Remove *)
}.

Definition no_faults : io :=
  {| on_tempfile := None; on_write := None; on_close := None;
     on_rename := None; on_cleanup := None |}.

(** [fn] receives the open temporary file and the write primitive's
    outcome.  The deferred function runs on every return after the
    temporary file exists: it removes [tmpPath] unless the rename has
    emptied it, ignoring the result. *)
Definition CreateViaTempMove (o : io) (rnd : string) (fs : os.files)
    (path tempDir pfx : string)
    (fn : os.files → string → os.files * option error)
  : os.files * option error :=
  match os.TempFile (on_tempfile o) rnd fs tempDir pfx with
  | (fs0, inr err) => (fs0, Some err)
  | (fs1, inl tmpPath) =>
    let deferred (fs : os.files) := (os.Remove (on_cleanup o) fs tmpPath).1 in
    match fn fs1 tmpPath with
    | (fs2, Some err) => (deferred fs2, Some err)
    | (fs2, None) =>
      match os.Close (on_close o) with
      | Some err => (deferred fs2, Some err)
      | None =>
        match os.Rename (on_rename o) fs2 tmpPath path with
        | (fs3, Some err) => (deferred fs3, Some err)
        | (fs3, None) => (fs3, None)
        end
      end
    end
  end.

(** *** util/sleep.go and util/loopuntil.go *)

(** A call either returns or panics. *)
Inductive result (A : Type) : Type :=
| Returned (a : A)
| Panicked.
Arguments Returned {A} a.
Arguments Panicked {A}.

(** A [*time.Timer] that has been created, armed for a duration. *)
Inductive Timer : Set := NewTimer (d : Z).

Record Sleeper : Set := { t : option Timer }.

(** What the context does while one [Sleep] runs: whether it is already
    done when [Sleep] looks at it first, and whether it finishes before the
    timer ticks. *)
Record sleep_env : Set := {
  done_at_entry : bool;
  done_before_tick : bool;
}.

(** [Sleeper.Sleep]; [cerr] is the context's error. *)
Definition Sleeper_Sleep {E} (cerr : E) (ev : sleep_env) (s : Sleeper) (d : Z)
  : Sleeper * option E :=
  if (d <=? 0)%Z then (s, None)
  else if done_at_entry ev then (s, Some cerr)
  else
    let s := {| t := Some (NewTimer d) |} in   (* NewTimer, or Reset *)
    if done_before_tick ev then (s, Some cerr) else (s, None).

(** [Sleeper.Close]: [Stop] is called on the timer pointer as it is, and
    dereferences it. *)
Definition Sleeper_Close (s : Sleeper) : result Sleeper :=
  match t s with
  | None => Panicked
  | Some _ => Returned {| t := None |}
  end.

(** A function's return value once its deferred [Close] has run. *)
Definition closing {A} (s : Sleeper) (a : A) : result A :=
  match Sleeper_Close s with
  | Panicked => Panicked
  | Returned _ => Returned a
  end.

(** [Sleep], the single-use shortcut. *)
Definition Sleep {E} (cerr : E) (ev : sleep_env) (d : Z) : result (option E) :=
  let '(s, err) := Sleeper_Sleep cerr ev {| t := None |} d in
  closing s err.

(** The loop of [LoopUntil]: each round is the result of [fn] and what the
    context does during the [Sleep] that follows; [None] when the rounds
    given run out with the loop still going. *)
Fixpoint LoopUntil_loop {E} (cerr : E) (rounds : list (option E * sleep_env))
    (s : Sleeper) (p : Z) : option (Sleeper * E) :=
  match rounds with
  | [] => None
  | (r, ev) :: rounds =>
    match r with
    | Some err => Some (s, err)
    | None =>
      match Sleeper_Sleep cerr ev s p with
      | (s, Some err) => Some (s, err)
      | (s, None) => LoopUntil_loop cerr rounds s p
      end
    end
  end.

(** [LoopUntil]; [done_at_start] tells whether the context starts
    cancelled. *)
Definition LoopUntil {E} (cerr : E) (done_at_start : bool)
    (rounds : list (option E * sleep_env)) (p : Z) : option (result E) :=
  if done_at_start then Some (Returned cerr)
  else
    match LoopUntil_loop cerr rounds {| t := None |} p with
    | None => None
    | Some (s, err) => Some (closing s err)
    end.

(** *** util/foreachfile.go *)

(** The error [ForEachFile] returns: one of the directory's, the one it
    makes itself, or the callback's. *)
Inductive each_error (E : Type) : Type :=
| DirErr (e : error)
| NotADirectory
| CallbackErr (e : E).
Arguments DirErr {E} e.
Arguments NotADirectory {E}.
Arguments CallbackErr {E} e.

(** The inner loop: the callback on each file of one [Readdir], with the
    state the callback closes over. *)
Fixpoint each {St E} (fn : St → os.FileInfo → St * option E)
    (files : list os.FileInfo) (s : St) : St * option E :=
  match files with
  | [] => (s, None)
  | f :: files =>
    match fn s f with
    | (s, Some err) => (s, Some err)
    | (s, None) => each fn files s
    end
  end.

(** The outer loop, over the answers of [Readdir]; [None] when they run
    out with the loop still going. *)
Fixpoint ForEachFile_loop {St E} (fn : St → os.FileInfo → St * option E)
    (reads : list (list os.FileInfo * option os.readdir_error)) (s : St)
  : option (St * option (each_error E)) :=
  match reads with
  | [] => None
  | (files, err) :: reads =>
    match err with
    | Some (os.EREAD f) => Some (s, Some (DirErr (EFAULT f)))
    | _ =>
      match each fn files s with
      | (s, Some e) => Some (s, Some (CallbackErr e))
      | (s, None) =>
        match err with
        | Some _ => Some (s, None)          (* eof = true *)
        | None => ForEachFile_loop fn reads s
        end
      end
    end
  end.

Definition ForEachFile {St E} (d : os.dir)
    (fn : St → os.FileInfo → St * option E) (s : St)
  : option (St * option (each_error E)) :=
  match os.on_open d with
  | Some err => Some (s, Some (DirErr err))
  | None =>
    match os.on_stat d with
    | inl err => Some (s, Some (DirErr err))
    | inr false => Some (s, Some NotADirectory)
    | inr true => ForEachFile_loop fn (os.reads d) s
    end
  end.

End util.

(** ** applications/pixelproxy/storage *)

Module storage.

Definition fileDataExt : string := ".protostream".

Record S : Set := {
  Root : string;
  tempDir : string;
  fileDir : string;
  defaultFilePath : string;
}.


Record File : Set := {
  DisplayName : string;
  ID : string;
  Path : string;
}.

Definition sanitizeDisplayName (v : string) : string := gostrings.TrimSpace v.

Definition isValid (r : rune) : bool :=
  if unicode.MaxASCII <? r then false
  else unicode.IsLetter r || unicode.IsNumber r.

(** [sb.WriteRune(r)] and [fmt.Fprintf(&sb, "_%x_", r)] on a builder
    holding [sb]. *)
Definition WriteRune (sb : string) (r : rune) : string := sb +:+ utf8.EncodeRune r.
Definition Fprintf_x (sb : string) (r : rune) : string :=
  sb +:+ "_" +:+ gostrings.hex r +:+ "_".

Definition fileIDFromDisplayName (v : string) : string :=
  foldl (λ sb r, if isValid r then WriteRune sb r else Fprintf_x sb r)
    "" (utf8.runes v).

Definition makeFileForName (st : S) (name : string) : File :=
  let name := sanitizeDisplayName name in
  let id := fileIDFromDisplayName name in
  {| DisplayName := name;
     ID := id;
     Path := filepath.Join (fileDir st) (id +:+ fileDataExt) |}.

(** [SetDefault]: [rm] is the outcome of the [os.Remove] of the clearing
    branch. *)
Definition SetDefault (rm : option fault) (o : util.io) (rnd : string)
    (st : S) (fs : os.files) (name : string) : os.files * option error :=
  if decide (name = "") then
    match os.Remove rm fs (defaultFilePath st) with
    | (fs', Some err) =>
      if negb (os.IsNotExist err) then (fs', Some err) else (fs', None)
    | (fs', None) => (fs', None)
    end
  else
    util.CreateViaTempMove o rnd fs (defaultFilePath st) (tempDir st) "default"
      (λ fs w, os.Write (util.on_write o) fs w name).

Definition GetDefault (rd : option fault) (st : S) (fs : os.files)
  : string * option error :=
  match os.ReadFile rd fs (defaultFilePath st) with
  | (_, Some err) => ("", if os.IsNotExist err then None else Some err)
  | (content, None) => (content, None)
  end.

(** [loadFileFromPath]; [load] is [streamfile.LoadMetadataAndSize], giving
    the name in the metadata block. *)
Definition loadFileFromPath (load : string → string + error) (path id : string)
  : File + error :=
  match load path with
  | inr err => inr err
  | inl name => inl {| DisplayName := name; ID := id; Path := path |}
  end.

(** The callback of [ListFiles]; the state is the slice [files]. *)
Definition ListFiles_fn (st : S) (load : string → string + error)
    (files : list File) (fi : os.FileInfo) : list File * option error :=
  if negb (os.IsDir fi) then (files, None)
  else
    let name := os.Name fi in
    if negb (String.eqb (filepath.Ext name) fileDataExt) then (files, None)
    else
      let path := filepath.Join (fileDir st) name in
      let id := gostrings.TrimSuffix (os.Name fi) fileDataExt in
      match loadFileFromPath load path id with
      | inr _ => (files, None)             (* logged and ignored *)
      | inl file => ((files ++ [file])%list, None)
      end.

Definition ListFiles (st : S) (load : string → string + error) (d : os.dir)
  : option (list File * option (util.each_error error)) :=
  match util.ForEachFile d (ListFiles_fn st load) [] with
  | None => None
  | Some (_, Some err) => Some ([], Some err)
  | Some (files, None) => Some (files, None)
  end.

End storage.

(** ** The packages of gopushpixels the controller drives

  [proxy.Manager], [replay.Player], [replay.Recorder] and [streamfile]
  belong to the gopushpixels library, whose code is not part of this
  repository.  The controller only calls them; what the calls do is taken
  from the specification. *)

(** Devices and their discovery headers, as far as pairing reads them. *)
Module device.

(** An [int32] sum wraps around. *)
Definition int32 (z : Z) : Z := ((z + 2 ^ 31) `mod` 2 ^ 32 - 2 ^ 31)%Z.

Record DiscoveryHeaders : Set := {
  HardwareAddr : list N;      (* the MAC, 6 bytes *)
  IPAddress : list N;
  StripsAttached : N;
  PixelsPerStrip : N;
  GroupOrdinal : Z;           (* int32 *)
  ControllerOrdinal : Z;      (* int32 *)
  MyPort : N;
}.

(** A discovered ("real") device. *)
Record D : Set := {
  ID : string;
  headers : DiscoveryHeaders;
}.

End device.

Module proxy.

(** Who holds a forwarding lease: the controller itself
    ([AddLease(ctrl)]) or a [proxyManagerPlaybackLeaser] allocated by
    [PlayFile], identified by its address. *)
Inductive holder : Set :=
| ControllerLease
| PlaybackLeaser (ptr : nat).

#[global] Instance holder_eq_dec : EqDecision holder.
Proof. solve_decision. Defined.

#[global] Program Instance holder_countable : Countable holder :=
  inj_countable'
    (λ h, match h with ControllerLease => None | PlaybackLeaser n => Some n end)
    (λ o, match o with None => ControllerLease | Some n => PlaybackLeaser n end) _.
Next Obligation. by intros []. Qed.

(** A proxy device: the real device it shadows, by ID, and the headers
    it advertises. *)
Record ProxyDevice : Set := {
  Proxied : string;
  DiscoveryHeaders : device.DiscoveryHeaders;
}.

Record Manager : Type := {
  Prefix : list N;            (* AddressRegistry.Prefix *)
  ProxyAddr : list N;
  GroupOffset : Z;
  leases : gmultiset holder;
  listeners : list nat;
  proxies : gmap string ProxyDevice;
}.

Definition on_leases (f : gmultiset holder → gmultiset holder) (m : Manager) : Manager :=
  {| Prefix := Prefix m; ProxyAddr := ProxyAddr m; GroupOffset := GroupOffset m;
     leases := f (leases m); listeners := listeners m; proxies := proxies m |}.

Definition on_listeners (f : list nat → list nat) (m : Manager) : Manager :=
  {| Prefix := Prefix m; ProxyAddr := ProxyAddr m; GroupOffset := GroupOffset m;
     leases := leases m; listeners := f (listeners m); proxies := proxies m |}.

Definition on_proxies (f : gmap string ProxyDevice → gmap string ProxyDevice)
    (m : Manager) : Manager :=
  {| Prefix := Prefix m; ProxyAddr := ProxyAddr m; GroupOffset := GroupOffset m;
     leases := leases m; listeners := listeners m; proxies := f (proxies m) |}.

(** Modelled from the spec: [AddLease] and [RemoveLease] of
    [proxy.Manager], which has no code here.  "The set of active leases is
    a multiset keyed by holder; forwarding is enabled iff the set is
    empty." *)
Definition AddLease (h : holder) : Manager → Manager :=
  on_leases (λ ls, ls ⊎ {[+ h +]}).

Definition RemoveLease (h : holder) : Manager → Manager :=
  on_leases (λ ls, ls ∖ {[+ h +]}).

Definition Forwarding (m : Manager) : bool := bool_decide (leases m = ∅).

(** Modelled from the spec: the listener set of [proxy.Manager], which
    has no code here.  A listener is identified by its address. *)
Definition AddListener (l : nat) : Manager → Manager :=
  on_listeners (cons l).

Fixpoint remove_first (l : nat) (ls : list nat) : list nat :=
  match ls with
  | [] => []
  | x :: ls' => if decide (x = l) then ls' else x :: remove_first l ls'
  end.

Definition RemoveListener (l : nat) : Manager → Manager :=
  on_listeners (remove_first l).

(** Modelled from the spec: [IsProxyDeviceAddr], [AddDevice],
    [RemoveDevice] and [ProxyDevices] of [proxy.Manager], which have no code
    here.  "Derive a synthetic MAC by concatenating the configured proxy
    prefix (3 bytes) with the low 3 bytes of the real device's MAC;
    synthesize DiscoveryHeaders inheriting the real device's strip/pixel
    configuration, with GroupOrdinal = real.group + groupOffset,
    ControllerOrdinal = real.controller, and the proxy's public IP; open a
    UDP socket on an ephemeral port; set the synthesized headers' port to
    that port."  The manager keeps a (real -> proxy) map.  [sock] is what
    opening the socket gives: the port, or a failure, which [AddDevice]
    returns as the caller in app.go expects. *)
Definition IsProxyDeviceAddr (m : Manager) (mac : list N) : bool :=
  bool_decide (take 3 mac = Prefix m).

Definition low3 (mac : list N) : list N := drop (length mac - 3) mac.

Definition synthesize (m : Manager) (port : N) (d : device.D) : ProxyDevice :=
  let dh := device.headers d in
  {| Proxied := device.ID d;
     DiscoveryHeaders :=
       {| device.HardwareAddr := Prefix m ++ low3 (device.HardwareAddr dh);
          device.IPAddress := ProxyAddr m;
          device.StripsAttached := device.StripsAttached dh;
          device.PixelsPerStrip := device.PixelsPerStrip dh;
          device.GroupOrdinal :=
            device.int32 (device.GroupOrdinal dh + GroupOffset m);
          device.ControllerOrdinal := device.ControllerOrdinal dh;
          device.MyPort := port |} |}.

Definition AddDevice (sock : N + fault) (d : device.D) (m : Manager)
  : Manager * option error :=
  match sock with
  | inr f => (m, Some (EFAULT f))
  | inl port => (on_proxies (insert (device.ID d) (synthesize m port d)) m, None)
  end.

Definition RemoveDevice (id : string) : Manager → Manager :=
  on_proxies (delete id).

Definition ProxyDevices (m : Manager) : list ProxyDevice :=
  (map_to_list (proxies m)).*2.

(** The manager [rootCmdRun] builds. *)
Definition new (addr : list N) (offset : Z) : Manager :=
  {| Prefix := [0xE1; 0x2E; 0xC7]; ProxyAddr := addr; GroupOffset := offset;
     leases := ∅; listeners := []; proxies := ∅ |}.

(** [proxy.AutoResumeListener], by its address. *)
Record AutoResumeListener : Set := { arl_ptr : nat; Delay : Z }.

End proxy.

Module replay.

(** [replay.Player]: its leaser, the stream it reads, whether it is
    paused. *)
Record Player : Set := {
  PlaybackLeaser : proxy.holder;
  player_path : string;
  player_paused : bool;
}.

(** [replay.Recorder] after [Start]: the stream its writer commits to. *)
Record Recorder : Set := {
  recorder_path : string;
  recorder_name : string;
}.

End replay.

(** ** applications/pixelproxy/controller.go *)

Module pixelproxy.

Record Controller : Set := {
  AutoResumeDelay : Z;
  player : option replay.Player;
  playingName : string;
  autoResumeListener : option proxy.AutoResumeListener;
  recorder : option replay.Recorder;
  recorderListener : option nat;
  recordingName : string;
  hasProxyManagerLease : bool;
  isRunning : bool;
}.

(** The calls the controller makes into [streamfile] and [replay], in
    the order made, newest first. *)
Inductive call : Set :=
| MakeEventStreamWriter (path name : string)
| MakeEventStreamReader (path : string)
| StreamDelete (path : string)
| StreamMerge (dest name : string) (srcs : list string)
| PlayerPlay (path : string)
| PlayerStop (path : string)
| PlayerPause
| PlayerResume
| RecorderStart (path : string)
| RecorderStop (path : string)
| AutoResumeStart
| AutoResumeStop.

(** The controller together with everything it has a pointer to. *)
Record World : Type := {
  ctrl : Controller;
  ProxyManager : proxy.Manager;
  Storage : storage.S;
  disk : os.files;
  streams : gset string;
  heap : nat;              (* the next fresh address *)
  calls : list call;
}.

(** What the outside world answers during one operation. *)
Record env : Set := {
  open_writer : option fault;
  open_reader : option fault;
  recorder_stop : option fault;
  stream_delete : option fault;
  stream_merge : option fault;
  read_default : option fault;
  remove_default : option fault;
  write_default : util.io;
  temp_suffix : string;
  system_control : option fault;
}.

Definition calm : env :=
  {| open_writer := None; open_reader := None; recorder_stop := None;
     stream_delete := None; stream_merge := None; read_default := None;
     remove_default := None; write_default := util.no_faults;
     temp_suffix := "001"; system_control := None |}.

(** *** Field updates *)

Definition set_player (v : option replay.Player) (n : string) (c : Controller) :=
  {| AutoResumeDelay := AutoResumeDelay c; player := v; playingName := n;
     autoResumeListener := autoResumeListener c; recorder := recorder c;
     recorderListener := recorderListener c; recordingName := recordingName c;
     hasProxyManagerLease := hasProxyManagerLease c; isRunning := isRunning c |}.

Definition set_autoResumeListener (v : option proxy.AutoResumeListener) (c : Controller) :=
  {| AutoResumeDelay := AutoResumeDelay c; player := player c;
     playingName := playingName c; autoResumeListener := v;
     recorder := recorder c; recorderListener := recorderListener c;
     recordingName := recordingName c;
     hasProxyManagerLease := hasProxyManagerLease c; isRunning := isRunning c |}.

Definition set_recorder (v : option replay.Recorder) (n : string) (c : Controller) :=
  {| AutoResumeDelay := AutoResumeDelay c; player := player c;
     playingName := playingName c; autoResumeListener := autoResumeListener c;
     recorder := v; recorderListener := recorderListener c; recordingName := n;
     hasProxyManagerLease := hasProxyManagerLease c; isRunning := isRunning c |}.

Definition set_recorderListener (v : option nat) (c : Controller) :=
  {| AutoResumeDelay := AutoResumeDelay c; player := player c;
     playingName := playingName c; autoResumeListener := autoResumeListener c;
     recorder := recorder c; recorderListener := v;
     recordingName := recordingName c;
     hasProxyManagerLease := hasProxyManagerLease c; isRunning := isRunning c |}.

Definition set_hasProxyManagerLease (v : bool) (c : Controller) :=
  {| AutoResumeDelay := AutoResumeDelay c; player := player c;
     playingName := playingName c; autoResumeListener := autoResumeListener c;
     recorder := recorder c; recorderListener := recorderListener c;
     recordingName := recordingName c;
     hasProxyManagerLease := v; isRunning := isRunning c |}.

Definition set_isRunning (v : bool) (c : Controller) :=
  {| AutoResumeDelay := AutoResumeDelay c; player := player c;
     playingName := playingName c; autoResumeListener := autoResumeListener c;
     recorder := recorder c; recorderListener := recorderListener c;
     recordingName := recordingName c;
     hasProxyManagerLease := hasProxyManagerLease c; isRunning := v |}.

Definition on_ctrl (f : Controller → Controller) (w : World) : World :=
  {| ctrl := f (ctrl w); ProxyManager := ProxyManager w; Storage := Storage w;
     disk := disk w; streams := streams w; heap := heap w; calls := calls w |}.

Definition on_pm (f : proxy.Manager → proxy.Manager) (w : World) : World :=
  {| ctrl := ctrl w; ProxyManager := f (ProxyManager w); Storage := Storage w;
     disk := disk w; streams := streams w; heap := heap w; calls := calls w |}.

Definition set_disk (d : os.files) (w : World) : World :=
  {| ctrl := ctrl w; ProxyManager := ProxyManager w; Storage := Storage w;
     disk := d; streams := streams w; heap := heap w; calls := calls w |}.

Definition on_streams (f : gset string → gset string) (w : World) : World :=
  {| ctrl := ctrl w; ProxyManager := ProxyManager w; Storage := Storage w;
     disk := disk w; streams := f (streams w); heap := heap w; calls := calls w |}.

Definition called (c : call) (w : World) : World :=
  {| ctrl := ctrl w; ProxyManager := ProxyManager w; Storage := Storage w;
     disk := disk w; streams := streams w; heap := heap w; calls := c :: calls w |}.

(** Allocation: the address handed out, and the world after it. *)
Definition alloc (w : World) : nat * World :=
  (heap w,
   {| ctrl := ctrl w; ProxyManager := ProxyManager w; Storage := Storage w;
      disk := disk w; streams := streams w; heap := S (heap w); calls := calls w |}).

(** *** Calls into gopushpixels *)

(** Modelled from the spec: [Player.Play], [Stop], [Pause] and [Resume] of
    [replay.Player], which has no code here.  "Acquire a playback lease from
    the controller-supplied leaser"; "Pause does not release the lease. Stop
    releases the lease."  The leaser is [proxyManagerPlaybackLeaser], whose
    two methods are [AddLease(l)] and [RemoveLease(l)] on the manager. *)
Definition Player_Play (p : replay.Player) (w : World) : World :=
  called (PlayerPlay (replay.player_path p))
    (on_pm (proxy.AddLease (replay.PlaybackLeaser p)) w).

Definition Player_Stop (p : replay.Player) (w : World) : World :=
  called (PlayerStop (replay.player_path p))
    (on_pm (proxy.RemoveLease (replay.PlaybackLeaser p)) w).

Definition paused_as (b : bool) (p : replay.Player) : replay.Player :=
  {| replay.PlaybackLeaser := replay.PlaybackLeaser p;
     replay.player_path := replay.player_path p;
     replay.player_paused := b |}.

Definition Player_Pause (p : replay.Player) (w : World) : World :=
  called PlayerPause
    (on_ctrl (λ c, set_player (Some (paused_as true p)) (playingName c) c) w).

Definition Player_Resume (p : replay.Player) (w : World) : World :=
  called PlayerResume
    (on_ctrl (λ c, set_player (Some (paused_as false p)) (playingName c) c) w).

(** Modelled from the spec: [Recorder.Start] and [Recorder.Stop] of
    [replay.Recorder], which has no code here.  "Close finalizes metadata":
    stopping commits the stream unless the writer fails. *)
Definition Recorder_Start (r : replay.Recorder) (w : World) : World :=
  called (RecorderStart (replay.recorder_path r)) w.

Definition Recorder_Stop (e : env) (r : replay.Recorder) (w : World)
  : World * option error :=
  let w := called (RecorderStop (replay.recorder_path r)) w in
  match recorder_stop e with
  | Some f => (w, Some (errStream f))
  | None => (on_streams (λ s, {[ replay.recorder_path r ]} ∪ s) w, None)
  end.

(** Modelled from the spec: [AutoResumeListener.Start] and [Stop], which
    have no code here.  "Subscribes to the proxy manager's listener set." *)
Definition AutoResume_Start (l : proxy.AutoResumeListener) (w : World) : World :=
  called AutoResumeStart (on_pm (proxy.AddListener (proxy.arl_ptr l)) w).

Definition AutoResume_Stop (l : proxy.AutoResumeListener) (w : World) : World :=
  called AutoResumeStop (on_pm (proxy.RemoveListener (proxy.arl_ptr l)) w).

(** *** storage.go: the methods that reach [streamfile]

    The stream file format is a black box: opening, deleting and merging
    succeed or fail as the environment says. *)

Definition Storage_OpenWriter (e : env) (name : string) (w : World)
  : World * (storage.File + error) :=
  let f := storage.makeFileForName (Storage w) name in
  let w := called (MakeEventStreamWriter (storage.Path f) (storage.DisplayName f)) w in
  match open_writer e with
  | Some flt => (w, inr (errStream flt))
  | None => (w, inl f)
  end.

Definition Storage_OpenReader (e : env) (name : string) (w : World)
  : World * (storage.File + error) :=
  let f := storage.makeFileForName (Storage w) name in
  let w := called (MakeEventStreamReader (storage.Path f)) w in
  match open_reader e with
  | Some flt => (w, inr (errStream flt))
  | None => (w, inl f)
  end.

Definition Storage_DeleteFile (e : env) (name : string) (w : World)
  : World * option error :=
  let f := storage.makeFileForName (Storage w) name in
  let w := called (StreamDelete (storage.Path f)) w in
  match stream_delete e with
  | Some flt => (w, Some (errStream flt))
  | None => (on_streams (λ s, s ∖ {[ storage.Path f ]}) w, None)
  end.

Definition Storage_MergeFiles (e : env) (dest : string) (srcs : list string)
    (w : World) : World * option error :=
  let destF := storage.makeFileForName (Storage w) dest in
  let srcPaths := (λ src, storage.Path (storage.makeFileForName (Storage w) src)) <$> srcs in
  let w := called (StreamMerge (storage.Path destF) (storage.DisplayName destF) srcPaths) w in
  match stream_merge e with
  | Some flt => (w, Some (errStream flt))
  | None => (on_streams (λ s, {[ storage.Path destF ]} ∪ s) w, None)
  end.

Definition Storage_SetDefault (e : env) (name : string) (w : World)
  : World * option error :=
  let '(d, err) :=
    storage.SetDefault (remove_default e) (write_default e) (temp_suffix e)
      (Storage w) (disk w) name in
  (set_disk d w, err).

Definition Storage_GetDefault (e : env) (w : World) : string * option error :=
  storage.GetDefault (read_default e) (Storage w) (disk w).

(** *** The controller's methods *)

(** [if !ctrl.running() { return errNotRunning }] in front of a body. *)
Definition running (w : World) : bool := isRunning (ctrl w).

Definition guarded (body : World → World * option error) (w : World)
  : World * option error :=
  if negb (running w) then (w, Some errNotRunning) else body w.

Definition stopTaskLocked (e : env) (w : World) : World :=
  let w :=
    match player (ctrl w) with
    | Some p => on_ctrl (set_player None "") (Player_Stop p w)
    | None => w
    end in
  let w :=
    match autoResumeListener (ctrl w) with
    | Some l => on_ctrl (set_autoResumeListener None) (AutoResume_Stop l w)
    | None => w
    end in
  let w :=
    match recorderListener (ctrl w) with
    | Some l => on_ctrl (set_recorderListener None) (on_pm (proxy.RemoveListener l) w)
    | None => w
    end in
  match recorder (ctrl w) with
  | Some r => on_ctrl (set_recorder None "") (Recorder_Stop e r w).1
  | None => w
  end.

Definition recordFileLocked (e : env) (name : string) (w : World)
  : World * option error :=
  let w := stopTaskLocked e w in
  match Storage_OpenWriter e name w with
  | (w, inr err) => (w, Some err)
  | (w, inl sw) =>
    let r := {| replay.recorder_path := storage.Path sw;
                replay.recorder_name := storage.DisplayName sw |} in
    let '(l, w) := alloc w in
    let w := on_ctrl (λ c, set_recorderListener (Some l) (set_recorder (Some r) name c)) w in
    let w := Recorder_Start r w in
    (on_pm (proxy.AddListener l) w, None)
  end.

Definition RecordFile (e : env) (name : string) : World → World * option error :=
  guarded (recordFileLocked e name).

Definition MergeFiles (e : env) (name : string) (srcs : list string) (w : World)
  : World * option error :=
  if decide (length srcs = 0%nat) then (w, Some errNoSourceFiles)
  else Storage_MergeFiles e name srcs w.

Definition stopLocked (e : env) (w : World) : World * option error :=
  (stopTaskLocked e w, None).

Definition Stop (e : env) : World → World * option error :=
  guarded (stopLocked e).

Definition playFileLocked (e : env) (name : string) (w : World)
  : World * option error :=
  let w := stopTaskLocked e w in
  match Storage_OpenReader e name w with
  | (w, inr err) => (w, Some err)
  | (w, inl sr) =>
    let '(l, w) := alloc w in
    let p := {| replay.PlaybackLeaser := proxy.PlaybackLeaser l;
                replay.player_path := storage.Path sr;
                replay.player_paused := false |} in
    let w := on_ctrl (set_player (Some p) name) w in
    (Player_Play p w, None)
  end.

Definition PlayFile (e : env) (name : string) : World → World * option error :=
  guarded (playFileLocked e name).

Definition pauseFileLocked (w : World) : World * option error :=
  let w :=
    match player (ctrl w) with
    | Some p => Player_Pause p w
    | None => w
    end in
  let w :=
    match autoResumeListener (ctrl w) with
    | None =>
      if (0 <? AutoResumeDelay (ctrl w))%Z then
        let '(l, w) := alloc w in
        let arl := {| proxy.arl_ptr := l; proxy.Delay := AutoResumeDelay (ctrl w) |} in
        AutoResume_Start arl (on_ctrl (set_autoResumeListener (Some arl)) w)
      else w
    | Some _ => w
    end in
  (w, None).

Definition PauseFile : World → World * option error := guarded pauseFileLocked.

Definition resumeFileLocked (w : World) : World * option error :=
  let w :=
    match autoResumeListener (ctrl w) with
    | Some l => on_ctrl (set_autoResumeListener None) (AutoResume_Stop l w)
    | None => w
    end in
  let w :=
    match player (ctrl w) with
    | Some p => Player_Resume p w
    | None => w
    end in
  (w, None).

Definition ResumeFile : World → World * option error := guarded resumeFileLocked.

Definition deleteFileLocked (e : env) (name : string) (w : World)
  : World * option error :=
  let w :=
    if bool_decide (recorder (ctrl w) ≠ None) && bool_decide (recordingName (ctrl w) = name)
    then stopTaskLocked e w else w in
  let w :=
    if bool_decide (player (ctrl w) ≠ None) && bool_decide (playingName (ctrl w) = name)
    then stopTaskLocked e w else w in
  Storage_DeleteFile e name w.

Definition DeleteFile (e : env) (name : string) : World → World * option error :=
  guarded (deleteFileLocked e name).

Definition SetDefaultFile (e : env) (name : string) : World → World * option error :=
  guarded (Storage_SetDefault e name).

Definition SetProxyForwarding (forward : bool) (w : World) : World * option error :=
  let w :=
    if forward then on_pm (proxy.RemoveLease proxy.ControllerLease) w
    else on_pm (proxy.AddLease proxy.ControllerLease) w in
  (on_ctrl (set_hasProxyManagerLease (negb forward)) w, None).

(** [Shutdown]: the result of [Stop] is logged only; the operating system
    is asked to restart or shut down either way. *)
Definition Shutdown (e : env) (restart : bool) (w : World) : World * option error :=
  ((Stop e w).1, os.injected (system_control e)).

(** The part of [Status] that reports on forwarding. *)
Record ControllerStatus : Set := {
  ProxyForwarding : bool;
  DisablingProxyForwarding : bool;
}.

Definition Status (w : World) : ControllerStatus :=
  {| ProxyForwarding := proxy.Forwarding (ProxyManager w);
     DisablingProxyForwarding := hasProxyManagerLease (ctrl w) |}.

(** *** Run *)

Inductive outcome : Set :=
| Returned (err : option error)
| Panicked
| Blocked (defaultFileName : string).   (* running; Run goes on to wait *)

(** [Run] up to and including its first locked section. *)
Definition Run_enter (e : env) (w : World) : World * outcome :=
  match Storage_GetDefault e w with
  | (_, Some err) => (w, Returned (Some (Wrap "loading default file" err)))
  | (defaultFileName, None) =>
    if isRunning (ctrl w) then (w, Panicked)
    else (stopTaskLocked e (on_ctrl (set_isRunning true) w), Blocked defaultFileName)
  end.

(** The deferred function of [Run]. *)
Definition Run_exit (e : env) (w : World) : World :=
  let w := on_pm (proxy.RemoveLease proxy.ControllerLease) w in
  let w := stopTaskLocked e w in
  on_ctrl (set_isRunning false) w.

(** [Run] until it waits on its context: the first locked section, then
    playback of the default file when there is one. *)
Definition Run_start (e : env) (w : World) : World * outcome :=
  match Run_enter e w with
  | (w, Blocked defaultFileName) =>
    if decide (defaultFileName = "") then (w, Blocked defaultFileName)
    else ((PlayFile e defaultFileName w).1, Blocked defaultFileName)
  | r => r
  end.

(** The listener [RecordFile] installs, on a packet the recorder fails to
    record for a reason other than an unsupported encoding: it detaches
    itself and calls [Stop]. *)
Definition recorderListener_failed (e : env) (w : World) : World :=
  let w :=
    match recorderListener (ctrl w) with
    | Some l => on_pm (proxy.RemoveListener l) w
    | None => w
    end in
  (Stop e w).1.

(** *** The controller as a transition system *)

Inductive op : Set :=
| OpRunEnter
| OpRunExit
| OpRecordFile (name : string)
| OpMergeFiles (name : string) (srcs : list string)
| OpStop
| OpPlayFile (name : string)
| OpPauseFile
| OpResumeFile
| OpDeleteFile (name : string)
| OpSetDefaultFile (name : string)
| OpSetProxyForwarding (forward : bool)
| OpShutdown (restart : bool)
| OpRecorderListenerFailed.

Definition returned (r : World * option error) : World * outcome :=
  (r.1, Returned r.2).

Definition exec (e : env) (o : op) (w : World) : World * outcome :=
  match o with
  | OpRunEnter => Run_enter e w
  | OpRunExit => (Run_exit e w, Returned None)
  | OpRecordFile name => returned (RecordFile e name w)
  | OpMergeFiles name srcs => returned (MergeFiles e name srcs w)
  | OpStop => returned (Stop e w)
  | OpPlayFile name => returned (PlayFile e name w)
  | OpPauseFile => returned (PauseFile w)
  | OpResumeFile => returned (ResumeFile w)
  | OpDeleteFile name => returned (DeleteFile e name w)
  | OpSetDefaultFile name => returned (SetDefaultFile e name w)
  | OpSetProxyForwarding forward => returned (SetProxyForwarding forward w)
  | OpShutdown restart => returned (Shutdown e restart w)
  | OpRecorderListenerFailed => (recorderListener_failed e w, Returned None)
  end.

(** A method checks [running()] and takes the lock afterwards: [Run] may
    exit in between, and the body then runs on a controller that has
    stopped. *)
Definition exec_raced (e : env) (o : op) (w : World) : World :=
  match o with
  | OpRecordFile name => (recordFileLocked e name w).1
  | OpStop | OpShutdown _ => (stopLocked e w).1
  | OpPlayFile name => (playFileLocked e name w).1
  | OpPauseFile => (pauseFileLocked w).1
  | OpResumeFile => (resumeFileLocked w).1
  | OpDeleteFile name => (deleteFileLocked e name w).1
  | OpSetDefaultFile name => (Storage_SetDefault e name w).1
  | OpRecorderListenerFailed =>
    (stopLocked e
       match recorderListener (ctrl w) with
       | Some l => on_pm (proxy.RemoveListener l) w
       | None => w
       end).1
  | _ => (exec e o w).1
  end.

(** A controller as [rootCmdRun] builds it, before [Run]. *)
Definition new_Controller (delay : Z) : Controller :=
  {| AutoResumeDelay := delay; player := None; playingName := "";
     autoResumeListener := None; recorder := None; recorderListener := None;
     recordingName := ""; hasProxyManagerLease := false; isRunning := false |}.

Definition boot (delay : Z) (pm : list N * Z) (st : storage.S) (d : os.files)
    (s : gset string) : World :=
  {| ctrl := new_Controller delay; ProxyManager := proxy.new pm.1 pm.2; Storage := st;
     disk := d; streams := s; heap := 0%nat; calls := [] |}.

Inductive reachable : World → Prop :=
| reach_boot delay pm st d s : reachable (boot delay pm st d s)
| reach_exec e o w : reachable w → reachable (exec e o w).1
| reach_raced e o w : reachable w → reachable (exec_raced e o w).

(** *** app.go: discovery feeds the proxy manager *)

(** [FilterFunc] of the discovery listener. *)
Definition FilterFunc (m : proxy.Manager) (dh : device.DiscoveryHeaders) : bool :=
  negb (proxy.IsProxyDeviceAddr m (device.HardwareAddr dh)).

(** The callback given to [discovery.ListenAndRegister]: a failure of
    [AddDevice] is logged and the callback returns nil. *)
Definition on_registered (sock : N + fault) (d : device.D) (m : proxy.Manager)
  : proxy.Manager * option error :=
  ((proxy.AddDevice sock d m).1, None).

(** The device registry and the manager side by side. *)
Record Pairing : Type := {
  registry : gmap string device.D;
  manager : proxy.Manager;
}.

(** Modelled from the spec: [discovery.ListenAndRegister] and the expiry
    sweep of [discovery.Registry], which have no code here.  Headers that
    pass the filter are upserted into the registry; "a proxy is created when
    a new real device appears in the registry", so the callback runs for a
    device that was not known; "when a real device is removed (expired), its
    paired proxy is closed and removed".  Headers announced again by a
    device already known are left out. *)
Definition discovered (sock : N + fault) (d : device.D) (a : Pairing) : Pairing :=
  if FilterFunc (manager a) (device.headers d) then
    match registry a !! device.ID d with
    | Some _ => a
    | None =>
      {| registry := <[device.ID d := d]> (registry a);
         manager := (on_registered sock d (manager a)).1 |}
    end
  else a.

Definition expired (id : string) (a : Pairing) : Pairing :=
  {| registry := delete id (registry a);
     manager := proxy.RemoveDevice id (manager a) |}.

Inductive paired : Pairing → Prop :=
| paired_start addr offset :
    paired {| registry := ∅; manager := proxy.new addr offset |}
| paired_discovered sock d a : paired a → paired (discovered sock d a)
| paired_expired id a : paired a → paired (expired id a).

End pixelproxy.

(** * The vocabulary of the properties *)

Import pixelproxy.

(** The ASCII letters and digits, by their code points. *)
Definition ascii_alnum (r : rune) : bool :=
  between 0x30 0x39 r || between 0x41 0x5A r || between 0x61 0x7A r.

(** What one rune of the display name contributes to the ID. *)
Definition escape (r : rune) : string :=
  if ascii_alnum r then byte_str r
  else "_" +:+ gostrings.hex r +:+ "_".

Definition concat_strings (l : list string) : string := foldr String.append "" l.



Definition at_most_one (w : World) : Prop :=
  player (ctrl w) = None ∨ recorder (ctrl w) = None.

Definition idle (w : World) : Prop :=
  player (ctrl w) = None ∧ recorder (ctrl w) = None.

(** The task [w] holds was stopped on the way to [w']. *)
Definition task_stopped (w w' : World) : Prop :=
  (∀ p, player (ctrl w) = Some p → PlayerStop (replay.player_path p) ∈ calls w')
  ∧ (∀ r, recorder (ctrl w) = Some r → RecorderStop (replay.recorder_path r) ∈ calls w').

Definition demo_storage : storage.S :=
  {| storage.Root := "/var/pp";
     storage.tempDir := "/var/pp/temporary";
     storage.fileDir := "/var/pp/files";
     storage.defaultFilePath := "/var/pp/files/default" |}.

(** A controller with an auto-resume delay of five seconds, before [Run]. *)
Definition fresh_world : World :=
  boot 5000000000 ([10; 0; 0; 1], 0%Z) demo_storage ∅ ∅.

(** The same controller inside [Run], with no default file: running, and
    holding no task. *)
Definition idle_world : World := (exec calm OpRunEnter fresh_world).1.

(** ... and after [PlayFile "show"] and [RecordFile "show"]. *)
Definition playing_world : World := (exec calm (OpPlayFile "show") idle_world).1.
Definition recording_world : World := (exec calm (OpRecordFile "show") idle_world).1.

(** [PauseFile] on a running controller without a player, as a call that
    is refused: an error comes back and no auto-resume listener appears. *)
Definition PauseFile_refused (w : World) : Prop :=
  running w = true → player (ctrl w) = None →
  (PauseFile w).2 ≠ None
  ∧ autoResumeListener (ctrl (PauseFile w).1) = autoResumeListener (ctrl w).


(** The lease set covers the controller: its own lease is there when
    [hasProxyManagerLease] says so, and the lease of the player's leaser is
    there while a player is installed. *)
Definition leases_cover (w : World) : Prop :=
  (hasProxyManagerLease (ctrl w) = true →
   proxy.ControllerLease ∈ proxy.leases (ProxyManager w))
  ∧ (∀ p, player (ctrl w) = Some p →
          replay.PlaybackLeaser p ∈ proxy.leases (ProxyManager w)
          ∧ replay.PlaybackLeaser p ≠ proxy.ControllerLease).

(** The controller blocks forwarding by hand and [Run] then leaves. *)
Definition blocked_world : World := (exec calm (OpSetProxyForwarding false) idle_world).1.
Definition left_world : World := (exec calm OpRunExit blocked_world).1.

(** [p] mirrors the real device [d] under manager [m]: prefix, low three
    bytes, group shifted by the offset, same controller. *)
Definition mirrors (m : proxy.Manager) (d : device.D) (p : proxy.ProxyDevice) : Prop :=
  let mac := device.HardwareAddr (proxy.DiscoveryHeaders p) in
  take 3 mac = proxy.Prefix m
  ∧ drop 3 mac = proxy.low3 (device.HardwareAddr (device.headers d))
  ∧ device.GroupOrdinal (proxy.DiscoveryHeaders p)
    = device.int32 (device.GroupOrdinal (device.headers d) + proxy.GroupOffset m)
  ∧ device.ControllerOrdinal (proxy.DiscoveryHeaders p)
    = device.ControllerOrdinal (device.headers d).


Definition demo_device : device.D :=
  {| device.ID := "00:11:22:33:44:55";
     device.headers :=
       {| device.HardwareAddr := [0x00; 0x11; 0x22; 0x33; 0x44; 0x55];
          device.IPAddress := [192; 168; 1; 20];
          device.StripsAttached := 4;
          device.PixelsPerStrip := 128;
          device.GroupOrdinal := 2;
          device.ControllerOrdinal := 7;
          device.MyPort := 5000 |} |}.

Definition no_devices : Pairing :=
  {| registry := ∅; manager := proxy.new [10; 0; 0; 1] 100 |}.

(** The device is announced and the proxy's socket cannot be opened. *)
Definition unproxied : Pairing := discovered (inr EACCES) demo_device no_devices.
Definition proxied : Pairing := discovered (inl 40001) demo_device no_devices.


(** A second device with another vendor prefix and the same low three
    bytes, group and controller. *)
Definition twin_device : device.D :=
  {| device.ID := "66:77:88:33:44:55";
     device.headers :=
       {| device.HardwareAddr := [0x66; 0x77; 0x88; 0x33; 0x44; 0x55];
          device.IPAddress := [192; 168; 1; 21];
          device.StripsAttached := 4;
          device.PixelsPerStrip := 128;
          device.GroupOrdinal := 2;
          device.ControllerOrdinal := 7;
          device.MyPort := 5000 |} |}.

Definition twins : Pairing := discovered (inl 40002) twin_device proxied.

(** Environments in which one step fails. *)
Definition writer_fails : env :=
  {| open_writer := Some EIO; open_reader := None; recorder_stop := None;
     stream_delete := None; stream_merge := None; read_default := None;
     remove_default := None; write_default := util.no_faults;
     temp_suffix := "001"; system_control := None |}.



(** Nothing is left of a task: no player, no recorder, and neither of the
    two listeners. *)
Definition quiet (w : World) : Prop :=
  player (ctrl w) = None ∧ autoResumeListener (ctrl w) = None
  ∧ recorderListener (ctrl w) = None ∧ recorder (ctrl w) = None.

(** The methods that start with the [running()] check. *)
Definition refused (w : World) : Prop :=
  (∀ e name, RecordFile e name w = (w, Some errNotRunning))
  ∧ (∀ e name, PlayFile e name w = (w, Some errNotRunning))
  ∧ (∀ e name, DeleteFile e name w = (w, Some errNotRunning))
  ∧ (∀ e name, SetDefaultFile e name w = (w, Some errNotRunning))
  ∧ (∀ e, Stop e w = (w, Some errNotRunning))
  ∧ PauseFile w = (w, Some errNotRunning)
  ∧ ResumeFile w = (w, Some errNotRunning).

(** The playback leases in the set are exactly the one of the installed
    player: once for its leaser, none for any other. *)
Definition playback_leases_exact (w : World) : Prop :=
  ∀ l, multiplicity (proxy.PlaybackLeaser l) (proxy.leases (ProxyManager w))
       = if bool_decide (replay.PlaybackLeaser <$> player (ctrl w)
                         = Some (proxy.PlaybackLeaser l))
         then 1%nat else 0%nat.

(** A default file naming "show", and an environment whose reads fail. *)
Definition default_show_world : World :=
  boot 0 ([10; 0; 0; 1], 0%Z) demo_storage {[ "/var/pp/files/default" := "show" ]} ∅.

Definition reader_fails : env :=
  {| open_writer := None; open_reader := Some EIO; recorder_stop := None;
     stream_delete := None; stream_merge := None; read_default := None;
     remove_default := None; write_default := util.no_faults;
     temp_suffix := "001"; system_control := None |}.

(** Every character of a string passes a test. *)
Fixpoint string_forall (P : ascii → bool) (s : string) : bool :=
  match s with
  | "" => true
  | String c s' => P c && string_forall P s'
  end.


(** The characters of a lowercase hexadecimal number. *)
Definition hex_digit (c : ascii) : bool :=
  between 0x30 0x39 (byte_val c) || between 0x61 0x66 (byte_val c).

(** One step of the range loop: the first token of a string and what
    follows it. *)
Definition first_token (s : string) : option (utf8.token * string) :=
  match s with
  | "" => None
  | String c0 s1 =>
    let b0 := byte_val c0 in
    let bad := Some ((utf8.RuneError, String c0 ""), s1) in
    if b0 <? utf8.RuneSelf then Some ((b0, String c0 ""), s1) else
    match utf8.first b0 with
    | None => bad
    | Some (sz, lo, hi) =>
      match s1 with
      | "" => bad
      | String c1 s2 =>
        let b1 := byte_val c1 in
        if negb (between lo hi b1) then bad else
        if (sz =? 2)%nat
        then Some ((utf8.rune2 b0 b1, String c0 (String c1 "")), s2) else
        match s2 with
        | "" => bad
        | String c2 s3 =>
          let b2 := byte_val c2 in
          if negb (utf8.cont b2) then bad else
          if (sz =? 3)%nat
          then Some ((utf8.rune3 b0 b1 b2, String c0 (String c1 (String c2 ""))), s3)
          else
          match s3 with
          | "" => bad
          | String c3 s4 =>
            let b3 := byte_val c3 in
            if negb (utf8.cont b3) then bad else
            Some ((utf8.rune4 b0 b1 b2 b3,
                   String c0 (String c1 (String c2 (String c3 "")))), s4)
          end
        end
      end
    end
  end.

(** A string that no multi-byte sequence can run into: it is empty or
    starts with a byte that is not a continuation byte. *)
Definition boundary (s : string) : Prop :=
  match s with
  | "" => True
  | String c _ => utf8.cont (byte_val c) = false
  end.

(** A list of tokens that does not start with white space. *)
Definition starts_clean (ts : list utf8.token) : Prop :=
  match ts with
  | [] => True
  | t :: _ => gostrings.is_space_token t = false
  end.


(** ** util/logging/memory.go *)

Module logging.

(** A [zapcore.Entry], as far as the memory logger looks at it. *)
Record Entry : Set := {
  Level : Z;
  Message : string;
}.

Record MemoryLogger : Set := {
  Size : Z;
  MinLevel : Z;
  entries : list (option Entry);
  pos : Z;
  count : Z;
}.

(** A logger as [WithLogger] declares it: only [Size] and [MinLevel] set. *)
Definition new (size minLevel : Z) : MemoryLogger :=
  {| Size := size; MinLevel := minLevel; entries := []; pos := 0; count := 0 |}.

(** [Hook]; [None] is a panic, either the explicit one or an index out of
    range.  The capacity of [entries] is its length: it is nil or made by
    [make] with that length. *)
Definition Hook (e : Entry) (ml : MemoryLogger) : option MemoryLogger :=
  if (Level e <? MinLevel ml)%Z then Some ml
  else if (Size ml <=? 0)%Z then None
  else
    let '(ents, p) :=
      if negb (Z.of_nat (length (entries ml)) =? Size ml)%Z
      then (replicate (Z.to_nat (Size ml)) None, 0%Z)
      else (entries ml, pos ml) in
    let len := Z.of_nat (length ents) in
    if negb ((0 <=? p)%Z && (p <? len)%Z) then None
    else
      let ents := <[Z.to_nat p := Some e]> ents in
      let p := (p + 1)%Z in
      let p := if (len <=? p)%Z then 0%Z else p in
      let c := if (count ml <? len)%Z then (count ml + 1)%Z else count ml in
      Some {| Size := Size ml; MinLevel := MinLevel ml; entries := ents;
              pos := p; count := c |}.

(** The index [Get] reads at step [i]. *)
Definition index_at (ml : MemoryLogger) (i : Z) : Z :=
  let len := Z.of_nat (length (entries ml)) in
  let index := (pos ml - count ml + i)%Z in
  if (index <? 0)%Z then (index + len)%Z
  else if (len <=? index)%Z then (index - len)%Z
  else index.

(** [Get]; [None] is an index out of range. *)
Definition Get (ml : MemoryLogger) : option (list Entry) :=
  foldl
    (λ acc i,
       match acc with
       | None => None
       | Some result =>
         let index := index_at ml i in
         if (index <? 0)%Z then None else
         match entries ml !! Z.to_nat index with
         | None => None
         | Some None => Some result
         | Some (Some e) => Some (result ++ [e])%list
         end
       end)
    (Some []) (seqZ 0 (count ml)).

(** The hook called on each entry logged, in order. *)
Definition hooked (es : list Entry) (ml : MemoryLogger) : option MemoryLogger :=
  foldl (λ acc e, match acc with Some ml => Hook e ml | None => None end)
    (Some ml) es.

End logging.

(** The entries a logger retains, and the most recent [n] of a list. *)
Definition retained (minLevel : Z) (es : list logging.Entry) : list logging.Entry :=
  filter (λ e, (minLevel ≤ logging.Level e)%Z) es.

Definition most_recent {A} (n : nat) (l : list A) : list A :=
  drop (length l - n) l.

(** What the ring buffer of a logger of [size] entries looks like once the
    entries [kept] have been retained, in this order: untouched, filling up,
    or full with the write position between the newer ([front]) and the
    older ([back]) entries. *)
Definition ring (size minLevel : Z) (kept : list logging.Entry)
    (ml : logging.MemoryLogger) : Prop :=
  logging.Size ml = size ∧ logging.MinLevel ml = minLevel
  ∧ logging.count ml = Z.of_nat (length kept `min` Z.to_nat size)
  ∧ ((kept = [] ∧ logging.entries ml = [] ∧ logging.pos ml = 0%Z)
     ∨ ((length kept < Z.to_nat size)%nat
        ∧ logging.pos ml = Z.of_nat (length kept)
        ∧ logging.entries ml
          = ((Some <$> kept)
             ++ replicate (Z.to_nat size - length kept) None)%list)
     ∨ ((Z.to_nat size ≤ length kept)%nat
        ∧ ∃ front back,
            logging.entries ml = Some <$> (front ++ back)%list
            ∧ logging.pos ml = Z.of_nat (length front)
            ∧ back ≠ []
            ∧ (back ++ front)%list = most_recent (Z.to_nat size) kept)).

(** The error that ends a loop of [LoopUntil] rounds, if one does: the
    first error of [fn], or the context's error at the first [Sleep] the
    context interrupts. *)
Fixpoint first_stop {E} (cerr : E) (rounds : list (option E * util.sleep_env))
  : option E :=
  match rounds with
  | [] => None
  | (Some err, _) :: _ => Some err
  | (None, ev) :: rounds =>
    if util.done_at_entry ev || util.done_before_tick ev then Some cerr
    else first_stop cerr rounds
  end.

(** The first error of [fn] alone. *)
Fixpoint first_failure {E} (rounds : list (option E * util.sleep_env))
  : option E :=
  match rounds with
  | [] => None
  | (Some err, _) :: _ => Some err
  | (None, _) :: rounds => first_failure rounds
  end.

(** ** The response writer of net/http *)

Module http.

(** The server's [ResponseWriter]: the header map the handler changes, the
    status and headers as sent (fixed by the first [WriteHeader] or
    [Write]), and the body. *)
Record ResponseWriter : Type := {
  header : gmap string string;
  sent : option (Z * gmap string string);
  body : string;
}.

Definition StatusOK : Z := 200.



(** [WriteHeader] with a final status code; a second call is ignored. *)
Definition WriteHeader (code : Z) (rw : ResponseWriter) : ResponseWriter :=
  match sent rw with
  | Some _ => rw
  | None =>
    {| header := header rw; sent := Some (code, header rw); body := body rw |}
  end.

Definition Write (b : string) (rw : ResponseWriter) : ResponseWriter :=
  let rw := WriteHeader StatusOK rw in
  {| header := header rw; sent := sent rw; body := body rw +:+ b |}.

End http.

(** ** The asset loaders of package web *)

Module web.

(** The errors an [AssetLoader] returns: the sentinel [ErrNotFound], which
    the chain compares by identity, or any other error. *)
Inductive asset_error : Set :=
| ErrNotFound
| ErrOther (e : error).

(** [AssetLoader.Load]: the data ([None] is a nil slice) and the error. *)
Definition AssetLoader : Type := string → option string * option asset_error.

(** [AssetLoaderChain.Load]. *)
Fixpoint AssetLoaderChain_Load (alc : list AssetLoader) (name : string)
  : option string * option asset_error :=
  match alc with
  | [] => (None, Some ErrNotFound)
  | al :: alc =>
    match al name with
    | (data, None) => (data, None)
    | (_, Some ErrNotFound) => AssetLoaderChain_Load alc name
    | (_, Some err) => (None, Some err)
    end
  end.

(** A [DeviceInfo], as far as sorting looks at it. *)
Record DeviceInfo : Set := {
  Type_ : string;
  ID : string;
  ProxiedID : string;
  Group : Z;
  Controller : Z;
}.

(** [strings.SplitN(s, "/", 2)]: the part before the first slash, and the
    part after it when there is a slash. *)
Fixpoint SplitN2 (s : string) : string * option string :=
  match s with
  | "" => ("", None)
  | String c s' =>
    if Ascii.eqb c "/" then ("", Some s')
    else let '(a, b) := SplitN2 s' in (String c a, b)
  end.

(** The errors of [getContent]: its own, or the loader's. *)
Inductive content_error : Set :=
| NoRoot (root : string)
| LoadErr (e : asset_error).

(** [Site.getContent]; [filepath.ToSlash] changes nothing on Unix. *)
Definition getContent (Roots : gmap string AssetLoader) (name : string)
  : option string * option content_error :=
  let parts := SplitN2 name in
  let root := parts.1 in
  let name := match parts.2 with Some rest => rest | None => "" end in
  match Roots !! root with
  | None => (None, Some (NoRoot root))
  | Some al => let '(data, err) := al name in (data, LoadErr <$> err)
  end.

(** *** web/monitoring.go *)










End web.

(** The result of the callbacks as [ForEachFile] returns it. *)
Definition as_each_error {St E} (r : St * option E)
  : St * option (util.each_error E) :=
  (r.1, util.CallbackErr <$> r.2).

(** A directory that opens, is a directory, and hands out its entries in
    the given chunks, the last one together with [io.EOF]. *)
Definition listing (chunks : list (list os.FileInfo)) (last : list os.FileInfo)
    (more : list (list os.FileInfo * option os.readdir_error)) : os.dir :=
  {| os.on_open := None;
     os.on_stat := inr true;
     os.reads := ((λ c, (c, None)) <$> chunks) ++ (last, Some os.EOF) :: more |}.

(** The file a directory entry is listed as, if it is listed. *)
Definition listed_as (st : storage.S) (load : string → string + error)
    (fi : os.FileInfo) : option storage.File :=
  match storage.ListFiles_fn st load [] fi with
  | ([f], _) => Some f
  | _ => None
  end.

(** ** The order of [Controller.Devices] *)

(** Go's [<] on strings compares them byte by byte. *)
Definition string_less (a b : string) : bool := String.ltb a b.

(** The comparison handed to [sort.Slice] in [Devices]. *)
Definition Devices_less (di dj : web.DeviceInfo) : bool :=
  if (web.Group di <? web.Group dj)%Z then true
  else if (web.Group di >? web.Group dj)%Z then false
  else if (web.Controller di <? web.Controller dj)%Z then true
  else if (web.Controller di >? web.Controller dj)%Z then false
  else if string_less (web.Type_ di) (web.Type_ dj) then true
  else if string_less (web.Type_ dj) (web.Type_ di) then false
  else if string_less (web.ProxiedID di) (web.ProxiedID dj) then true
  else if string_less (web.ProxiedID dj) (web.ProxiedID di) then false
  else string_less (web.ID di) (web.ID dj).

(** The fields the comparison reads, most significant first. *)
Definition sort_key (d : web.DeviceInfo) : Z * Z * string * string * string :=
  (web.Group d, web.Controller d, web.Type_ d, web.ProxiedID d, web.ID d).

(** A three-way comparison that decides equality, is antisymmetric and
    transitive. *)
Definition three_way {A} (c : A → A → comparison) : Prop :=
  (∀ a b, c a b = Eq ↔ a = b)
  ∧ (∀ a b, c a b = CompOpp (c b a))
  ∧ (∀ a b d, c a b = Lt → c b d = Lt → c a d = Lt).

Definition lex {A B} (c1 : A → A → comparison) (c2 : B → B → comparison)
    (a b : A * B) : comparison :=
  match c1 a.1 b.1 with
  | Eq => c2 a.2 b.2
  | c => c
  end.

Definition compare_keys
  : Z * Z * string * string * string → Z * Z * string * string * string
    → comparison :=
  lex (lex (lex (lex Z.compare Z.compare) String.compare) String.compare)
    String.compare.


Definition no_slash (s : string) : bool :=
  string_forall (λ c, negb (Ascii.eqb c "/")) s.



(** * Properties *)

(** ** Strings *)

Lemma string_app_cons (x : ascii) (a b : string) :
  String x a +:+ b = String x (a +:+ b).
Proof. reflexivity. Qed.

Lemma string_app_assoc (a b c : string) : (a +:+ b) +:+ c = a +:+ (b +:+ c).
Proof. induction a as [|x a IH]; [done|]. rewrite !string_app_cons. by f_equal. Qed.

Lemma string_app_nil_r (a : string) : a +:+ "" = a.
Proof. induction a as [|x a IH]; [done|]. rewrite string_app_cons. by f_equal. Qed.

Lemma string_length_app (a b : string) :
  String.length (a +:+ b) = (String.length a + String.length b)%nat.
Proof.
  induction a as [|x a IH]; [done|]. rewrite string_app_cons. simpl. by f_equal.
Qed.

(** ** File IDs *)

Ltac by_ranges :=
  repeat (match goal with
          | |- context [(?a <=? ?b)%N] => destruct (N.leb_spec a b)
          | |- context [(?a <? ?b)%N] => destruct (N.ltb_spec a b)
          | |- context [(?a =? ?b)%N] => destruct (N.eqb_spec a b)
          end; simpl; try lia);
  try reflexivity.

Lemma isValid_ascii_alnum (r : rune) : storage.isValid r = ascii_alnum r.
Proof.
  unfold storage.isValid, ascii_alnum, unicode.IsLetter, unicode.IsNumber,
    unicode.MaxASCII, unicode.MaxLatin1, between.
  by_ranges.
Qed.

Lemma ascii_alnum_single_byte (r : rune) :
  ascii_alnum r = true → utf8.EncodeRune r = byte_str r.
Proof.
  unfold ascii_alnum, utf8.EncodeRune, between.
  destruct (N.leb_spec r 0x7F) as [|Hbig]; [done|].
  intros H. exfalso. revert H. by_ranges.
Qed.

Lemma builder_step (sb : string) (r : rune) :
  (if storage.isValid r then storage.WriteRune sb r else storage.Fprintf_x sb r)
  = sb +:+ escape r.
Proof.
  unfold escape. rewrite isValid_ascii_alnum.
  destruct (ascii_alnum r) eqn:Hr.
  - unfold storage.WriteRune. by rewrite ascii_alnum_single_byte.
  - done.
Qed.

Lemma builder_loop (rs : list rune) (sb : string) :
  foldl (λ sb r, if storage.isValid r then storage.WriteRune sb r
                 else storage.Fprintf_x sb r) sb rs
  = sb +:+ concat_strings (escape <$> rs).
Proof.
  revert sb. induction rs as [|r rs IH]; intros sb; simpl.
  - by rewrite string_app_nil_r.
  - rewrite builder_step, IH. by rewrite string_app_assoc.
Qed.

Lemma fileIDFromDisplayName_escapes (v : string) :
  storage.fileIDFromDisplayName v = concat_strings (escape <$> utf8.runes v).
Proof. unfold storage.fileIDFromDisplayName. by rewrite builder_loop. Qed.


Example fileID_demo :
  storage.fileIDFromDisplayName (gostrings.TrimSpace "  My show_1! ")
  = "My_20_show_5f_1_21_".
Proof. reflexivity. Qed.

(** ** The default file *)




Ltac settle :=
  repeat split; intros; simplify_eq; eauto; try done;
  try (exfalso;
       repeat match goal with H : _ ∨ _ |- _ => destruct H end;
       match goal with H : is_Some None |- _ => by destruct H end).


Lemma SetDefault_success (st : storage.S) rm o rnd fs fs' x :
  storage.SetDefault rm o rnd st fs x = (fs', None) →
  fs' !! storage.defaultFilePath st = if decide (x = "") then None else Some x.
Proof.
  intros H.
  unfold storage.SetDefault, util.CreateViaTempMove, os.TempFile, os.Write,
    os.Close, os.Rename, os.Remove, os.injected in H.
  set (p := storage.defaultFilePath st) in *.
  set (tmp := filepath.Join (storage.tempDir st) ("default" +:+ rnd)) in *.
  destruct o as [tf wr cl rn cu]; simpl in *.
  destruct (decide (x = "")) as [->|Hx].
  - destruct rm; [|destruct (fs !! p) eqn:Hp]; simpl in H; simplify_eq;
      by rewrite ?lookup_delete_eq.
  - destruct tf; [|destruct (fs !! tmp) eqn:Htmp]; simpl in H; [done..|].
    rewrite lookup_insert_eq in H. simpl in H.
    destruct wr as [[n f]|]; simpl in H; [done|].
    destruct cl; simpl in H; [done|].
    destruct rn; simpl in H; [done|].
    rewrite lookup_insert_eq in H. simpl in H. simplify_eq.
    by rewrite lookup_insert_eq.
Qed.

Lemma GetDefault_reads (st : storage.S) (fs : os.files) :
  storage.GetDefault None st fs
  = (default "" (fs !! storage.defaultFilePath st), None).
Proof.
  unfold storage.GetDefault, os.ReadFile.
  by destruct (fs !! storage.defaultFilePath st).
Qed.

(** C7. After [SetDefaultFile x] succeeds, [GetDefault] returns [x] and no
    error, for every string [x]; for the empty string the default entry is
    gone; and a missing default file reads as the empty string with no
    error.  [GetDefault] is taken without an injected read failure. *)
Theorem SetDefaultFile_then_GetDefault (e e' : pixelproxy.env) (x : string)
    (w : pixelproxy.World) :
  (pixelproxy.SetDefaultFile e x w).2 = None →
  pixelproxy.read_default e' = None →
  let w' := (pixelproxy.SetDefaultFile e x w).1 in
  pixelproxy.Storage_GetDefault e' w' = (x, None)
  ∧ (x = "" →
     pixelproxy.disk w' !! storage.defaultFilePath (pixelproxy.Storage w') = None)
  ∧ (∀ w0, pixelproxy.disk w0 !! storage.defaultFilePath (pixelproxy.Storage w0) = None →
           pixelproxy.Storage_GetDefault e' w0 = ("", None)).
Proof.
  intros Hok Hrd w'. subst w'.
  unfold pixelproxy.SetDefaultFile, pixelproxy.guarded in *.
  destruct (negb (pixelproxy.running w)); [done|].
  unfold pixelproxy.Storage_SetDefault, pixelproxy.Storage_GetDefault in *.
  rewrite Hrd.
  destruct (storage.SetDefault _ _ _ _ _ _) as [d err] eqn:Hset.
  simpl in *. subst err. apply SetDefault_success in Hset.
  rewrite GetDefault_reads. simpl. rewrite Hset.
  split; [by destruct (decide (x = "")) as [->|]|].
  split; [by intros ->|].
  intros w0 Hw0. by rewrite GetDefault_reads, Hw0.
Qed.


(** ** The controller holds at most one task *)

Lemma stopTaskLocked_idle (e : env) (w : World) : idle (stopTaskLocked e w).
Proof.
  unfold idle, stopTaskLocked, Recorder_Stop.
  destruct w as [[delay pl pn arl rc rl rn lease run] pm st d s h cs]; simpl.
  destruct pl, arl, rl, rc; simpl; try destruct (recorder_stop e); done.
Qed.

Lemma stopTaskLocked_isRunning (e : env) (w : World) :
  isRunning (ctrl (stopTaskLocked e w)) = isRunning (ctrl w).
Proof.
  unfold stopTaskLocked, Recorder_Stop.
  destruct w as [[delay pl pn arl rc rl rn lease run] pm st d s h cs]; simpl.
  destruct pl, arl, rl, rc; simpl; try destruct (recorder_stop e); done.
Qed.

Lemma idle_at_most_one (w : World) : idle w → at_most_one w.
Proof. intros [? _]. by left. Qed.

Lemma recordFileLocked_task e name w :
  let r := recordFileLocked e name w in
  player (ctrl r.1) = None
  ∧ (is_Some r.2 → recorder (ctrl r.1) = None)
  ∧ (r.2 = None → is_Some (recorder (ctrl r.1))).
Proof.
  unfold recordFileLocked.
  destruct (stopTaskLocked_idle e w) as [Hp Hr].
  destruct (stopTaskLocked e w) as [c pm st d s h cs]; simpl in *.
  unfold Storage_OpenWriter. destruct (open_writer e); simpl; settle.
Qed.

Lemma playFileLocked_task e name w :
  let r := playFileLocked e name w in
  recorder (ctrl r.1) = None
  ∧ (is_Some r.2 → player (ctrl r.1) = None)
  ∧ (r.2 = None → is_Some (player (ctrl r.1))).
Proof.
  unfold playFileLocked.
  destruct (stopTaskLocked_idle e w) as [Hp Hr].
  destruct (stopTaskLocked e w) as [c pm st d s h cs]; simpl in *.
  unfold Storage_OpenReader. destruct (open_reader e); simpl; settle.
Qed.

Lemma pauseFileLocked_task w :
  recorder (ctrl (pauseFileLocked w).1) = recorder (ctrl w)
  ∧ player (ctrl (pauseFileLocked w).1) = paused_as true <$> player (ctrl w).
Proof.
  unfold pauseFileLocked.
  destruct w as [[delay pl pn arl rc rl rn lease run] pm st d s h cs]; simpl.
  destruct pl, arl; simpl; try destruct (0 <? delay)%Z; done.
Qed.

Lemma resumeFileLocked_task w :
  recorder (ctrl (resumeFileLocked w).1) = recorder (ctrl w)
  ∧ player (ctrl (resumeFileLocked w).1) = paused_as false <$> player (ctrl w).
Proof.
  unfold resumeFileLocked.
  destruct w as [[delay pl pn arl rc rl rn lease run] pm st d s h cs]; simpl.
  destruct pl, arl; done.
Qed.

Lemma Storage_DeleteFile_ctrl e name w :
  ctrl (Storage_DeleteFile e name w).1 = ctrl w.
Proof. unfold Storage_DeleteFile. by destruct (stream_delete e). Qed.

Lemma deleteFileLocked_task e name w :
  at_most_one w → at_most_one (deleteFileLocked e name w).1.
Proof.
  intros Hw. unfold deleteFileLocked, at_most_one.
  rewrite Storage_DeleteFile_ctrl.
  repeat match goal with
         | |- context [if ?b then stopTaskLocked e ?v else _] =>
           destruct b;
           [ pose proof (stopTaskLocked_idle e v) as [? ?] | ]
         end; auto.
Qed.

Lemma guarded_keeps (P : World → Prop) body w :
  P w → P (body w).1 → P (guarded body w).1.
Proof. intros ? ?. unfold guarded. by destruct (negb (running w)). Qed.

Lemma Storage_SetDefault_ctrl e name w :
  ctrl (Storage_SetDefault e name w).1 = ctrl w.
Proof. unfold Storage_SetDefault. by destruct (storage.SetDefault _ _ _ _ _ _). Qed.

Lemma MergeFiles_ctrl e name srcs w :
  ctrl (MergeFiles e name srcs w).1 = ctrl w.
Proof.
  unfold MergeFiles, Storage_MergeFiles.
  destruct (decide _); [done|]. by destruct (stream_merge e).
Qed.

Lemma locked_at_most_one e o w :
  at_most_one w → at_most_one (exec_raced e o w).
Proof.
  intros Hw. destruct o; cbn [exec_raced exec returned fst].
  - unfold Run_enter. destruct (Storage_GetDefault e w) as [n [err|]]; [done|].
    destruct (isRunning (ctrl w)); [done|].
    apply idle_at_most_one, stopTaskLocked_idle.
  - apply idle_at_most_one. unfold Run_exit, idle. simpl. apply stopTaskLocked_idle.
  - destruct (recordFileLocked_task e name w) as (? & _). by left.
  - unfold at_most_one. by rewrite MergeFiles_ctrl.
  - apply idle_at_most_one, stopTaskLocked_idle.
  - destruct (playFileLocked_task e name w) as (? & _). by right.
  - destruct (pauseFileLocked_task w) as [Hr Hp]. unfold at_most_one.
    rewrite Hr, Hp. destruct Hw as [-> | ->]; auto.
  - destruct (resumeFileLocked_task w) as [Hr Hp]. unfold at_most_one.
    rewrite Hr, Hp. destruct Hw as [-> | ->]; auto.
  - by apply deleteFileLocked_task.
  - unfold at_most_one. by rewrite Storage_SetDefault_ctrl.
  - unfold SetProxyForwarding. by destruct forward.
  - apply idle_at_most_one, stopTaskLocked_idle.
  - apply idle_at_most_one, stopTaskLocked_idle.
Qed.

Lemma exec_at_most_one e o w :
  at_most_one w → at_most_one (exec e o w).1.
Proof.
  intros Hw.
  destruct o; cbn [exec returned fst];
    unfold RecordFile, PlayFile, PauseFile, ResumeFile, DeleteFile,
      SetDefaultFile, Shutdown, Stop; cbn [fst];
    try apply guarded_keeps; try done;
    try (by apply (locked_at_most_one e OpRunEnter));
    try (by apply (locked_at_most_one e OpRunExit)).
  - by apply (locked_at_most_one e (OpRecordFile name)).
  - by apply (locked_at_most_one e (OpMergeFiles name srcs)).
  - by apply (locked_at_most_one e OpStop).
  - by apply (locked_at_most_one e (OpPlayFile name)).
  - by apply (locked_at_most_one e OpPauseFile).
  - by apply (locked_at_most_one e OpResumeFile).
  - by apply (locked_at_most_one e (OpDeleteFile name)).
  - by apply (locked_at_most_one e (OpSetDefaultFile name)).
  - by apply (locked_at_most_one e (OpSetProxyForwarding forward)).
  - by apply (locked_at_most_one e OpStop).
  - unfold recorderListener_failed, Stop. apply guarded_keeps.
    + by destruct (recorderListener (ctrl w)).
    + apply idle_at_most_one, stopTaskLocked_idle.
Qed.

(** C1. In every reachable state of the controller at most one of
    [recorder] and [player] is set.  The states reached are those from a
    fresh controller by any sequence of operations ([Run] entering and
    leaving, [RecordFile], [PlayFile], [PauseFile], [ResumeFile], [Stop],
    [DeleteFile] and the others), with any answers of the environment, the
    bodies that run after [Run] has left included.  [RecordFile] that
    returns nil has installed a recorder and left no player; [PlayFile] that
    returns nil has installed a player and left no recorder. *)
Theorem at_most_one_task (w : World) :
  reachable w →
  at_most_one w
  ∧ (∀ e name, (RecordFile e name w).2 = None →
               is_Some (recorder (ctrl (RecordFile e name w).1))
               ∧ player (ctrl (RecordFile e name w).1) = None)
  ∧ (∀ e name, (PlayFile e name w).2 = None →
               is_Some (player (ctrl (PlayFile e name w).1))
               ∧ recorder (ctrl (PlayFile e name w).1) = None).
Proof.
  intros Hw. split.
  - induction Hw as [delay pm st d s|e o w _ IH|e o w _ IH].
    + by left.
    + by apply exec_at_most_one.
    + by apply locked_at_most_one.
  - split; intros e name; unfold RecordFile, PlayFile, guarded;
      destruct (negb (running w)); try done; intros Hnil.
    + destruct (recordFileLocked_task e name w) as (? & _ & ?). auto.
    + destruct (playFileLocked_task e name w) as (? & _ & ?). auto.
Qed.

(** ** A failed open leaves the controller idle *)

Lemma stopTaskLocked_stops (e : env) (w : World) :
  task_stopped w (stopTaskLocked e w).
Proof.
  unfold task_stopped, stopTaskLocked, Recorder_Stop.
  destruct w as [[delay pl pn arl rc rl rn lease run] pm st d s h cs]; simpl.
  destruct pl, arl, rl, rc; simpl; try destruct (recorder_stop e); simpl;
    split; intros ? [= <-]; repeat constructor.
Qed.

(** C10. When [RecordFile] fails because the writer cannot be opened, or
    [PlayFile] because the reader cannot be opened, the call returns that
    error, and the task that was running has been stopped: afterwards the
    controller holds neither recorder nor player. *)
Theorem failed_open_leaves_idle (e : env) (name : string) (w : World) :
  running w = true →
  (∀ f, open_writer e = Some f →
        (RecordFile e name w).2 = Some (errStream f)
        ∧ idle (RecordFile e name w).1
        ∧ task_stopped w (RecordFile e name w).1)
  ∧ (∀ f, open_reader e = Some f →
          (PlayFile e name w).2 = Some (errStream f)
          ∧ idle (PlayFile e name w).1
          ∧ task_stopped w (PlayFile e name w).1).
Proof.
  intros Hrun.
  pose proof (stopTaskLocked_idle e w) as Hidle.
  pose proof (stopTaskLocked_stops e w) as [Hp Hr].
  split; intros f Hf;
    unfold RecordFile, PlayFile, guarded, recordFileLocked, playFileLocked,
      Storage_OpenWriter, Storage_OpenReader;
    rewrite Hrun, Hf; simpl; (split; [done|]); (split; [done|]);
    split; intros x Hx; apply list_elem_of_further; auto.
Qed.

(** ** Sample worlds *)


Example idle_world_runs : running idle_world = true ∧ idle idle_world.
Proof. by vm_compute. Qed.

(** ** PauseFile *)

Lemma PauseFile_idle_counterexample : ¬ PauseFile_refused idle_world.
Proof.
  intros H. destruct (H eq_refl eq_refl) as [Herr _]. by apply Herr.
Qed.

Example PauseFile_idle_starts_listener :
  (PauseFile idle_world).2 = None
  ∧ autoResumeListener (ctrl idle_world) = None
  ∧ is_Some (autoResumeListener (ctrl (PauseFile idle_world).1)).
Proof. vm_compute. eauto. Qed.

(** C4, as the code has it.  [PauseFile] needs a running controller and
    nothing else: not running, it returns [errNotRunning] and changes
    nothing; running, it returns nil.  With a player it pauses the player,
    and starts an auto-resume listener when the delay is positive and none
    is present, leaving the listener alone otherwise.  Without a player it
    pauses nothing and leaves player and recorder as they were. *)
Theorem PauseFile_behaviour (w : World) :
  (running w = false → PauseFile w = (w, Some errNotRunning))
  ∧ (running w = true →
     let w' := (PauseFile w).1 in
     (PauseFile w).2 = None
     ∧ (∀ p, player (ctrl w) = Some p →
          player (ctrl w') = Some (paused_as true p)
          ∧ PlayerPause ∈ calls w'
          ∧ (autoResumeListener (ctrl w) = None →
             (0 < AutoResumeDelay (ctrl w))%Z →
             is_Some (autoResumeListener (ctrl w')) ∧ AutoResumeStart ∈ calls w')
          ∧ (is_Some (autoResumeListener (ctrl w))
             ∨ (AutoResumeDelay (ctrl w) ≤ 0)%Z →
             autoResumeListener (ctrl w') = autoResumeListener (ctrl w)))
     ∧ (player (ctrl w) = None →
          player (ctrl w') = None
          ∧ recorder (ctrl w') = recorder (ctrl w)
          ∧ (PlayerPause ∈ calls w' → PlayerPause ∈ calls w))).
Proof.
  unfold PauseFile, guarded, running, pauseFileLocked.
  destruct w as [[delay pl pn arl rc rl rn lease run] pm st d s h cs];
    cbn [ctrl isRunning player autoResumeListener AutoResumeDelay recorder].
  split; [by intros ->|]. intros ->. cbn [negb].
  destruct pl as [q|], arl as [l|]; simpl;
    try destruct (Z.ltb_spec 0 delay) as [Hpos|Hnonpos]; simpl;
    (split; [done|]); split.
  all: try (intros p [= <-]; split; [done|]; split; [by repeat constructor|]).
  all: try (intros _; split; [done|]; split; [done|]).
  all: try (split; [intros; try done; try lia;
                    split; [by eexists|by repeat constructor] |]).
  all: try (intros [[? ?]|?]; try done; lia).
  all: try done.
  - split; [intros; lia | done].
  - intros Hin. by apply elem_of_cons in Hin as [?|?].
Qed.

(** ** MergeFiles *)


Example MergeFiles_not_running_merges :
  running fresh_world = false
  ∧ (MergeFiles calm "all" ["a"; "b"] fresh_world).2 = None
  ∧ calls (MergeFiles calm "all" ["a"; "b"] fresh_world).1
    = [StreamMerge "/var/pp/files/all.protostream" "all"
         ["/var/pp/files/a.protostream"; "/var/pp/files/b.protostream"]].
Proof. by vm_compute. Qed.


(** ** DeleteFile *)

Lemma stopTaskLocked_calls_mono (e : env) (w : World) (c : call) :
  c ∈ calls w → c ∈ calls (stopTaskLocked e w).
Proof.
  unfold stopTaskLocked, Recorder_Stop.
  destruct w as [[delay pl pn arl rc rl rn lease run] pm st d s h cs]; simpl.
  intros Hc.
  destruct pl, arl, rl, rc; simpl; try destruct (recorder_stop e); simpl;
    repeat (apply list_elem_of_further); done.
Qed.

Lemma stopTaskLocked_Storage (e : env) (w : World) :
  Storage (stopTaskLocked e w) = Storage w.
Proof.
  unfold stopTaskLocked, Recorder_Stop.
  destruct w as [[delay pl pn arl rc rl rn lease run] pm st d s h cs]; simpl.
  destruct pl, arl, rl, rc; simpl; try destruct (recorder_stop e); done.
Qed.

Lemma Storage_DeleteFile_calls (e : env) (name : string) (w : World) :
  calls (Storage_DeleteFile e name w).1
  = StreamDelete (storage.Path (storage.makeFileForName (Storage w) name)) :: calls w.
Proof. unfold Storage_DeleteFile. by destruct (stream_delete e). Qed.

(** With the name spelled as the task was started, [DeleteFile] stops the
    task and only then deletes. *)
Lemma DeleteFile_same_name (e : env) (name : string) (w : World) :
  running w = true →
  (is_Some (player (ctrl w)) ∧ playingName (ctrl w) = name)
  ∨ (is_Some (recorder (ctrl w)) ∧ recordingName (ctrl w) = name) →
  let r := DeleteFile e name w in
  idle r.1
  ∧ task_stopped w r.1
  ∧ head (calls r.1)
    = Some (StreamDelete (storage.Path (storage.makeFileForName (Storage w) name))).
Proof.
  intros Hrun Htask. unfold DeleteFile, guarded. rewrite Hrun. cbn [negb].
  unfold deleteFileLocked.
  pose proof (stopTaskLocked_idle e w) as Hidle.
  pose proof (stopTaskLocked_stops e w) as Hstops.
  pose proof (stopTaskLocked_Storage e w) as Hst.
  assert (∀ v, idle v → task_stopped w v → Storage v = Storage w →
          let r := Storage_DeleteFile e name v in
          idle r.1 ∧ task_stopped w r.1
          ∧ head (calls r.1)
            = Some (StreamDelete (storage.Path (storage.makeFileForName (Storage w) name))))
    as Hdel.
  { intros v Hv [Hp Hr] Hs. unfold idle, task_stopped.
    rewrite Storage_DeleteFile_ctrl, Storage_DeleteFile_calls, Hs.
    split; [done|]. split; [|done].
    split; intros; apply list_elem_of_further; auto. }
  assert (∀ v (b : bool), idle v → task_stopped w v → Storage v = Storage w →
          let v' := if b then stopTaskLocked e v else v in
          idle v' ∧ task_stopped w v' ∧ Storage v' = Storage w) as Hnext.
  { intros v [] Hv [Hp Hr] Hs; [|done]. simpl.
    split; [apply stopTaskLocked_idle|].
    split; [|by rewrite stopTaskLocked_Storage].
    split; intros; apply stopTaskLocked_calls_mono; auto. }
  destruct (bool_decide (recorder (ctrl w) ≠ None)
            && bool_decide (recordingName (ctrl w) = name)) eqn:Hc1.
  - edestruct Hnext as (? & ? & ?); [exact Hidle|exact Hstops|exact Hst|].
    by apply Hdel.
  - destruct Htask as [[[p Hp] Hn]|[[q Hq] Hn]].
    + rewrite Hp, Hn. rewrite !bool_decide_true by done. simpl. by apply Hdel.
    + rewrite Hq, Hn in Hc1. by rewrite !bool_decide_true in Hc1.
Qed.

(** The file a name stands for is found after trimming, so two spellings
    of a name can stand for one stream. *)
Example two_spellings_one_entry :
  storage.makeFileForName demo_storage "show "
  = storage.makeFileForName demo_storage "show".
Proof. reflexivity. Qed.

(** C6, at a name spelled differently from the one the task was started
    with.  The controller plays (or records) "show"; [DeleteFile "show "]
    names the same stream, returns nil, deletes that stream, and the player
    (or recorder) is still in place: no stop was issued. *)
Theorem DeleteFile_other_spelling_keeps_task :
  let path := "/var/pp/files/show.protostream" in
  let played := DeleteFile calm "show " playing_world in
  let recorded := DeleteFile calm "show " recording_world in
  storage.Path (storage.makeFileForName demo_storage "show ") = path
  ∧ (replay.player_path <$> player (ctrl playing_world)) = Some path
  ∧ played.2 = None
  ∧ player (ctrl played.1) = player (ctrl playing_world)
  ∧ calls played.1 = StreamDelete path :: calls playing_world
  ∧ (replay.recorder_path <$> recorder (ctrl recording_world)) = Some path
  ∧ recorded.2 = None
  ∧ recorder (ctrl recorded.1) = recorder (ctrl recording_world)
  ∧ calls recorded.1 = StreamDelete path :: calls recording_world.
Proof. by vm_compute. Qed.

(** ** Forwarding leases *)

(** C2, at [SetProxyForwarding(false)] followed by the exit of [Run].
    While blocked, the controller's lease is in the set once.  The deferred
    function of [Run] removes it and leaves [hasProxyManagerLease] set:
    afterwards the flag is on, the lease set is empty, and [Status] reports
    forwarding as both enabled and disabled by the controller. *)
Theorem Run_exit_keeps_lease_flag :
  hasProxyManagerLease (ctrl blocked_world) = true
  ∧ multiplicity proxy.ControllerLease (proxy.leases (ProxyManager blocked_world)) = 1%nat
  ∧ hasProxyManagerLease (ctrl left_world) = true
  ∧ multiplicity proxy.ControllerLease (proxy.leases (ProxyManager left_world)) = 0%nat
  ∧ Status left_world = {| ProxyForwarding := true; DisablingProxyForwarding := true |}
  ∧ ¬ leases_cover left_world.
Proof.
  repeat split; try (by vm_compute).
  intros [Hflag _]. specialize (Hflag eq_refl).
  apply elem_of_multiplicity in Hflag. vm_compute in Hflag. lia.
Qed.

Ltac open_world w :=
  destruct w as [[delay pl pn arl rc rl rn lease run]
                 [prefix addr offset ls lst prox] st d s h cs].

Lemma lease_remove_other (ls : gmultiset proxy.holder) (h h' : proxy.holder) :
  h ≠ h' → h ∈ ls → h ∈ ls ∖ {[+ h' +]}.
Proof.
  intros Hne. rewrite !elem_of_multiplicity, multiplicity_difference.
  rewrite multiplicity_singleton_ne by done. lia.
Qed.

Lemma lease_add_keeps (ls : gmultiset proxy.holder) (h h' : proxy.holder) :
  h ∈ ls → h ∈ ls ⊎ {[+ h' +]}.
Proof. rewrite !elem_of_multiplicity, multiplicity_disj_union. lia. Qed.

Lemma lease_add_in (ls : gmultiset proxy.holder) (h : proxy.holder) :
  h ∈ ls ⊎ {[+ h +]}.
Proof.
  rewrite elem_of_multiplicity, multiplicity_disj_union, multiplicity_singleton.
  rewrite decide_True by done. lia.
Qed.

Lemma stopTaskLocked_cover (e : env) (w : World) :
  leases_cover w → leases_cover (stopTaskLocked e w) ∧ idle (stopTaskLocked e w).
Proof.
  intros Hw. split; [|apply stopTaskLocked_idle]. revert Hw.
  unfold leases_cover, stopTaskLocked, Recorder_Stop.
  open_world w; simpl.
  intros [Hc Hp].
  destruct pl as [p|], arl, rl, rc; simpl; try destruct (recorder_stop e); simpl;
    (split; [|done]); intros Hl; specialize (Hc Hl); try done;
    destruct (Hp p eq_refl) as [Hin Hne];
    by apply lease_remove_other.
Qed.

Lemma stopTaskLocked_flag (e : env) (w : World) :
  hasProxyManagerLease (ctrl (stopTaskLocked e w)) = hasProxyManagerLease (ctrl w).
Proof.
  unfold stopTaskLocked, Recorder_Stop. open_world w; simpl.
  destruct pl, arl, rl, rc; simpl; try destruct (recorder_stop e); done.
Qed.

Lemma cover_idle_step (w w' : World) :
  leases_cover w → idle w' →
  hasProxyManagerLease (ctrl w') = hasProxyManagerLease (ctrl w) →
  proxy.leases (ProxyManager w') = proxy.leases (ProxyManager w) →
  leases_cover w'.
Proof.
  intros [Hc _] [Hp _] Hf Hl. unfold leases_cover. rewrite Hf, Hl, Hp.
  split; [done|]. by intros.
Qed.

Lemma cover_same (w w' : World) :
  leases_cover w → ctrl w' = ctrl w → ProxyManager w' = ProxyManager w →
  leases_cover w'.
Proof. unfold leases_cover. by intros ? -> ->. Qed.

Lemma recordFileLocked_cover e name w :
  leases_cover w → leases_cover (recordFileLocked e name w).1.
Proof.
  intros Hw. apply (stopTaskLocked_cover e) in Hw as [Hw Hidle].
  unfold recordFileLocked, Storage_OpenWriter.
  destruct (stopTaskLocked e w) as [c pm st d s h cs].
  destruct Hw as [Hc _], Hidle as [Hp Hr]. simpl in *.
  destruct (open_writer e); simpl; unfold leases_cover; simpl; rewrite ?Hp;
    (split; [done|]); by intros.
Qed.

Lemma playFileLocked_cover e name w :
  leases_cover w → leases_cover (playFileLocked e name w).1.
Proof.
  intros Hw. apply (stopTaskLocked_cover e) in Hw as [Hw Hidle].
  unfold playFileLocked, Storage_OpenReader.
  destruct (stopTaskLocked e w) as [c pm st d s h cs].
  destruct Hw as [Hc _], Hidle as [Hp Hr]. simpl in *.
  destruct (open_reader e); simpl; unfold leases_cover; simpl; rewrite ?Hp.
  - split; [done|]. by intros.
  - split.
    + intros Hl. by apply lease_add_keeps, Hc.
    + intros p [= <-]. simpl. split; [apply lease_add_in|done].
Qed.

Lemma pauseFileLocked_cover w :
  leases_cover w → leases_cover (pauseFileLocked w).1.
Proof.
  unfold leases_cover, pauseFileLocked. open_world w; simpl.
  intros [Hc Hp].
  destruct pl as [p|], arl; simpl; try destruct (0 <? delay)%Z; simpl;
    (split; [done|]); try done; intros ? [= <-]; simpl; by apply (Hp p).
Qed.

Lemma resumeFileLocked_cover w :
  leases_cover w → leases_cover (resumeFileLocked w).1.
Proof.
  unfold leases_cover, resumeFileLocked. open_world w; simpl.
  intros [Hc Hp].
  destruct pl as [p|], arl; simpl; (split; [done|]); try done;
    intros ? [= <-]; simpl; by apply (Hp p).
Qed.

Lemma Storage_DeleteFile_pm e name w :
  ProxyManager (Storage_DeleteFile e name w).1 = ProxyManager w.
Proof. unfold Storage_DeleteFile. by destruct (stream_delete e). Qed.

Lemma deleteFileLocked_cover e name w :
  leases_cover w → leases_cover (deleteFileLocked e name w).1.
Proof.
  intros Hw. unfold deleteFileLocked.
  eapply cover_same; [|apply Storage_DeleteFile_ctrl|apply Storage_DeleteFile_pm].
  repeat match goal with
         | |- context [if ?b then stopTaskLocked e ?v else _] => destruct b
         end; repeat apply stopTaskLocked_cover; done.
Qed.

Lemma SetProxyForwarding_cover forward w :
  leases_cover w → leases_cover (SetProxyForwarding forward w).1.
Proof.
  unfold leases_cover, SetProxyForwarding. open_world w; simpl.
  intros [Hc Hp]. destruct forward; simpl.
  - split; [done|]. intros p Hpl. destruct (Hp p Hpl) as [Hin Hne].
    split; [by apply lease_remove_other|done].
  - split; [intros _; apply lease_add_in|].
    intros p Hpl. destruct (Hp p Hpl) as [Hin Hne].
    split; [by apply lease_add_keeps|done].
Qed.

(** Every operation but the exit of [Run] keeps the leases covering the
    controller. *)
Lemma leases_cover_kept (e : env) (o : op) (w : World) :
  o ≠ OpRunExit → leases_cover w → leases_cover (exec e o w).1.
Proof.
  intros Ho Hw.
  destruct o; try done; cbn [exec returned fst];
    unfold RecordFile, PlayFile, PauseFile, ResumeFile, DeleteFile,
      SetDefaultFile, Shutdown, recorderListener_failed, Stop; cbn [fst];
    try apply guarded_keeps; try done.
  - unfold Run_enter. destruct (Storage_GetDefault e w) as [n [err|]]; [done|].
    destruct (isRunning (ctrl w)) eqn:Hrun; [done|]. simpl.
    apply stopTaskLocked_cover. by destruct w.
  - by apply recordFileLocked_cover.
  - eapply cover_same; [done|apply MergeFiles_ctrl|].
    unfold MergeFiles, Storage_MergeFiles.
    destruct (decide _); [done|]. by destruct (stream_merge e).
  - by apply stopTaskLocked_cover.
  - by apply playFileLocked_cover.
  - by apply pauseFileLocked_cover.
  - by apply resumeFileLocked_cover.
  - by apply deleteFileLocked_cover.
  - eapply cover_same; [done|apply Storage_SetDefault_ctrl|].
    unfold Storage_SetDefault. by destruct (storage.SetDefault _ _ _ _ _ _).
  - by apply SetProxyForwarding_cover.
  - by apply stopTaskLocked_cover.
  - destruct (recorderListener (ctrl w)); [|done]. by destruct w.
  - apply stopTaskLocked_cover. destruct (recorderListener (ctrl w)); [|done].
    by destruct w.
Qed.

(** ** Real devices and their proxies *)

Example unproxied_is_reached : paired unproxied.
Proof. apply paired_discovered, paired_start. Qed.

Example proxied_headers :
  proxy.DiscoveryHeaders <$> proxy.ProxyDevices (manager proxied)
  = [ {| device.HardwareAddr := [0xE1; 0x2E; 0xC7; 0x33; 0x44; 0x55];
         device.IPAddress := [10; 0; 0; 1];
         device.StripsAttached := 4;
         device.PixelsPerStrip := 128;
         device.GroupOrdinal := 102;
         device.ControllerOrdinal := 7;
         device.MyPort := 40001 |} ].
Proof. by vm_compute. Qed.










(** Two real devices that differ in their vendor prefix only: each has its
    proxy, and both proxies mirror either device. *)
Example twins_both_mirror :
  paired twins
  ∧ length (proxy.ProxyDevices (manager twins)) = 2%nat
  ∧ ∀ p, p ∈ proxy.ProxyDevices (manager twins) →
         mirrors (manager twins) demo_device p.
Proof.
  split; [apply paired_discovered, paired_discovered, paired_start|].
  split; [by vm_compute|].
  intros p Hp. vm_compute in Hp.
  apply elem_of_cons in Hp as [->|Hp]; [by vm_compute|].
  apply elem_of_cons in Hp as [->|Hp]; [by vm_compute|].
  by apply elem_of_nil in Hp.
Qed.

(** ** The theorems at sample inputs *)

Lemma at_most_one_task_witness :
  reachable playing_world ∧ at_most_one playing_world.
Proof.
  assert (reachable playing_world) as H
    by (apply reach_exec, reach_exec, reach_boot).
  split; [exact H|exact (proj1 (at_most_one_task playing_world H))].
Defined.


Lemma PauseFile_behaviour_witness :
  running playing_world = true ∧ (PauseFile playing_world).2 = None.
Proof.
  split; [reflexivity|].
  exact (proj1 (proj2 (PauseFile_behaviour playing_world) eq_refl)).
Defined.


Lemma SetDefaultFile_then_GetDefault_witness :
  (SetDefaultFile calm "show" idle_world).2 = None
  ∧ Storage_GetDefault calm (SetDefaultFile calm "show" idle_world).1 = ("show", None).
Proof.
  split; [reflexivity|].
  exact (proj1 (SetDefaultFile_then_GetDefault calm calm "show" idle_world
                  eq_refl eq_refl)).
Defined.


Lemma failed_open_leaves_idle_witness :
  running playing_world = true
  ∧ open_writer writer_fails = Some EIO
  ∧ (RecordFile writer_fails "next" playing_world).2 = Some (errStream EIO)
  ∧ idle (RecordFile writer_fails "next" playing_world).1.
Proof.
  split; [reflexivity|]. split; [reflexivity|].
  destruct (proj1 (failed_open_leaves_idle writer_fails "next" playing_world eq_refl)
              EIO eq_refl) as (Herr & Hidle & _).
  split; [exact Herr|exact Hidle].
Defined.

(** * Further properties of the controller *)

Lemma stopTaskLocked_quiet (e : env) (w : World) : quiet (stopTaskLocked e w).
Proof.
  unfold quiet, stopTaskLocked, Recorder_Stop. open_world w; simpl.
  destruct pl, arl, rl, rc; simpl; try destruct (recorder_stop e); done.
Qed.

Lemma stopTaskLocked_of_quiet (e : env) (w : World) :
  quiet w → stopTaskLocked e w = w.
Proof.
  unfold quiet, stopTaskLocked. open_world w; simpl.
  by intros (-> & -> & -> & ->).
Qed.

(** X1. [stopTaskLocked] clears the player, the recorder and both listener
    fields whatever the recorder's [Stop] answers, and a second call changes
    nothing: stopping is idempotent. *)
Theorem stopTaskLocked_idempotent (e e' : env) (w : World) :
  quiet (stopTaskLocked e w)
  ∧ stopTaskLocked e' (stopTaskLocked e w) = stopTaskLocked e w.
Proof.
  split; [apply stopTaskLocked_quiet|].
  apply stopTaskLocked_of_quiet, stopTaskLocked_quiet.
Qed.

(** X2. [ResumeFile] undoes [PauseFile].  On a running controller whose
    player is not paused and that has no auto-resume listener, pausing and
    then resuming gives back the same controller fields and the same proxy
    manager (the listener [PauseFile] attached is detached again); in
    between, the player is paused. *)
Theorem ResumeFile_undoes_PauseFile (w : World) (p : replay.Player) :
  running w = true →
  player (ctrl w) = Some p →
  replay.player_paused p = false →
  autoResumeListener (ctrl w) = None →
  let w1 := (PauseFile w).1 in
  let w2 := (ResumeFile w1).1 in
  player (ctrl w1) = Some (paused_as true p)
  ∧ (ResumeFile w1).2 = None
  ∧ ctrl w2 = ctrl w
  ∧ ProxyManager w2 = ProxyManager w.
Proof.
  unfold PauseFile, ResumeFile, guarded, running, pauseFileLocked, resumeFileLocked.
  open_world w; simpl. intros -> -> Hp ->. simpl.
  destruct p as [leaser path paused]. simpl in Hp. subst paused.
  destruct (0 <? delay)%Z; simpl; unfold proxy.RemoveListener, proxy.AddListener,
    proxy.on_listeners; simpl; rewrite ?decide_True by done; done.
Qed.

Lemma ResumeFile_undoes_PauseFile_witness :
  (replay.player_paused <$> player (ctrl (PauseFile playing_world).1)) = Some true
  ∧ ctrl (ResumeFile (PauseFile playing_world).1).1 = ctrl playing_world.
Proof.
  destruct (ResumeFile_undoes_PauseFile playing_world
              {| replay.PlaybackLeaser := proxy.PlaybackLeaser 0;
                 replay.player_path := "/var/pp/files/show.protostream";
                 replay.player_paused := false |}
              eq_refl eq_refl eq_refl eq_refl) as (H1 & _ & H2 & _).
  split; [by rewrite H1|exact H2].
Defined.

Lemma PlayFile_on_quiet (e : env) (name : string) (w : World) :
  quiet w → running w = true →
  let r := PlayFile e name w in
  (open_reader e = None →
     r.2 = None ∧ is_Some (player (ctrl r.1)) ∧ playingName (ctrl r.1) = name
     ∧ recorder (ctrl r.1) = None ∧ running r.1 = true)
  ∧ (∀ f, open_reader e = Some f →
     r.2 = Some (errStream f) ∧ quiet r.1 ∧ running r.1 = true).
Proof.
  intros Hq Hrun. unfold PlayFile, guarded. rewrite Hrun. cbn [negb].
  unfold playFileLocked. rewrite (stopTaskLocked_of_quiet e w Hq).
  unfold Storage_OpenReader, running in *. destruct Hq as (Hp & Ha & Hl & Hr).
  split.
  - intros ->. simpl. rewrite Hr, Hrun. eauto.
  - intros f ->. by simpl.
Qed.

(** X3. [Run] up to the point where it waits.  A failing read of the
    default file makes it return the wrapped error before anything changes;
    a controller already running makes it panic; otherwise the controller is
    marked running with nothing left of a task, and when a default file is
    named it is played: the player is installed under that name, or, when
    the reader cannot be opened, the failure is only logged and the
    controller runs without a task. *)
Theorem Run_start_cases (e : env) (w : World) :
  (∀ f, read_default e = Some f →
        Run_start e w = (w, Returned (Some (Wrap "loading default file" (EFAULT f)))))
  ∧ (read_default e = None → running w = true → Run_start e w = (w, Panicked))
  ∧ (read_default e = None → running w = false →
     let name := default "" (disk w !! storage.defaultFilePath (Storage w)) in
     let r := Run_start e w in
     r.2 = Blocked name
     ∧ running r.1 = true
     ∧ (name = "" → quiet r.1)
     ∧ (name ≠ "" → open_reader e = None →
        is_Some (player (ctrl r.1)) ∧ playingName (ctrl r.1) = name
        ∧ recorder (ctrl r.1) = None)
     ∧ (name ≠ "" → is_Some (open_reader e) → quiet r.1)).
Proof.
  unfold Run_start, Run_enter, Storage_GetDefault, running.
  split; [|split].
  - intros f ->. by unfold storage.GetDefault, os.ReadFile.
  - intros -> Hrun. rewrite GetDefault_reads, Hrun. done.
  - intros -> Hrun. rewrite GetDefault_reads, Hrun. simpl.
    set (name := default "" _).
    set (v := stopTaskLocked e _).
    assert (quiet v) as Hq by apply stopTaskLocked_quiet.
    assert (running v = true) as Hv.
    { unfold running, v. rewrite stopTaskLocked_isRunning. by destruct w. }
    destruct (PlayFile_on_quiet e name v Hq Hv) as [Hok Hbad].
    destruct (decide (name = "")) as [Hname|Hname]; simpl.
    + split; [done|]. split; [done|]. split; [done|]. split; done.
    + split; [done|].
      destruct (open_reader e) as [f|] eqn:Hopen.
      * destruct (Hbad f eq_refl) as (_ & Hq' & Hr').
        split; [done|]. split; [done|]. split; [by intros _ [=]|done].
      * destruct (Hok eq_refl) as (_ & Hp & Hn & Hr & Hr').
        split; [done|]. split; [done|]. split; [done|]. by intros _ [? [=]].
Qed.

Lemma Run_start_cases_witness :
  (Run_start calm default_show_world).2 = Blocked "show"
  ∧ playingName (ctrl (Run_start calm default_show_world).1) = "show"
  ∧ quiet (Run_start reader_fails default_show_world).1.
Proof.
  destruct (proj2 (proj2 (Run_start_cases calm default_show_world)) eq_refl eq_refl)
    as (H1 & _ & _ & H2 & _).
  destruct (proj2 (proj2 (Run_start_cases reader_fails default_show_world))
              eq_refl eq_refl) as (_ & _ & _ & _ & H3).
  split; [exact H1|]. split.
  - apply H2; [by vm_compute|reflexivity].
  - apply H3; [by vm_compute|by eexists].
Defined.

Lemma not_running_refused (w : World) : running w = false → refused w.
Proof.
  intros Hrun.
  unfold refused, RecordFile, PlayFile, DeleteFile, SetDefaultFile, Stop,
    PauseFile, ResumeFile, guarded.
  rewrite Hrun. by repeat split.
Qed.

(** X4. The deferred function of [Run] leaves a stopped controller: not
    running, with no player, recorder or listener, whatever it held before;
    and from then on every method that checks [running()] returns
    [errNotRunning] and changes nothing. *)
Theorem Run_exit_stops_everything (e : env) (w : World) :
  running (Run_exit e w) = false
  ∧ quiet (Run_exit e w)
  ∧ refused (Run_exit e w).
Proof.
  assert (running (Run_exit e w) = false) as Hrun by done.
  split; [done|]. split; [|by apply not_running_refused].
  unfold Run_exit, quiet. simpl. apply stopTaskLocked_quiet.
Qed.

Lemma lease_add_remove (ls : gmultiset proxy.holder) (h : proxy.holder) :
  (ls ⊎ {[+ h +]}) ∖ {[+ h +]} = ls.
Proof.
  apply gmultiset_eq. intros x.
  rewrite multiplicity_difference, multiplicity_disj_union. lia.
Qed.

(** X5. [SetProxyForwarding] always returns nil, running or not, sets
    [hasProxyManagerLease] to the negation of its argument and leaves player
    and recorder alone.  Disabling leaves forwarding off; enabling right
    after disabling gives back the lease set there was. *)
Theorem SetProxyForwarding_effects (forward : bool) (w : World) :
  let r := SetProxyForwarding forward w in
  r.2 = None
  ∧ hasProxyManagerLease (ctrl r.1) = negb forward
  ∧ player (ctrl r.1) = player (ctrl w)
  ∧ recorder (ctrl r.1) = recorder (ctrl w)
  ∧ proxy.Forwarding (ProxyManager (SetProxyForwarding false w).1) = false
  ∧ proxy.leases (ProxyManager
                    (SetProxyForwarding true (SetProxyForwarding false w).1).1)
    = proxy.leases (ProxyManager w).
Proof.
  unfold SetProxyForwarding. open_world w. simpl.
  split; [done|]. split; [by destruct forward|].
  split; [by destruct forward|]. split; [by destruct forward|].
  split.
  - unfold proxy.Forwarding. simpl. apply bool_decide_eq_false.
    intros Hempty. pose proof (lease_add_in ls proxy.ControllerLease) as Hin.
    rewrite Hempty in Hin. by apply gmultiset_not_elem_of_empty in Hin.
  - apply lease_add_remove.
Qed.

(** X6. [DeleteFile] of a name other than the one the task was started
    with leaves the task alone: on a running controller the controller
    fields and the proxy manager are unchanged, the one call made is the
    deletion of the stream the name stands for, its result is returned, and
    on success that stream is gone from storage. *)
Theorem DeleteFile_other_name (e : env) (name : string) (w : World) :
  running w = true →
  recorder (ctrl w) = None ∨ recordingName (ctrl w) ≠ name →
  player (ctrl w) = None ∨ playingName (ctrl w) ≠ name →
  let path := storage.Path (storage.makeFileForName (Storage w) name) in
  let r := DeleteFile e name w in
  ctrl r.1 = ctrl w
  ∧ ProxyManager r.1 = ProxyManager w
  ∧ calls r.1 = StreamDelete path :: calls w
  ∧ r.2 = errStream <$> stream_delete e
  ∧ (stream_delete e = None → streams r.1 = streams w ∖ {[ path ]}).
Proof.
  intros Hrun Hrec Hplay. unfold DeleteFile, guarded. rewrite Hrun. cbn [negb].
  unfold deleteFileLocked.
  assert (bool_decide (recorder (ctrl w) ≠ None)
          && bool_decide (recordingName (ctrl w) = name) = false) as ->.
  { destruct Hrec as [-> | Hne]; [done|].
    rewrite (bool_decide_false (_ = name)) by done. apply andb_false_r. }
  assert (bool_decide (player (ctrl w) ≠ None)
          && bool_decide (playingName (ctrl w) = name) = false) as ->.
  { destruct Hplay as [-> | Hne]; [done|].
    rewrite (bool_decide_false (_ = name)) by done. apply andb_false_r. }
  unfold Storage_DeleteFile. by destruct (stream_delete e).
Qed.

Lemma DeleteFile_other_name_witness :
  player (ctrl (DeleteFile calm "other" playing_world).1) = player (ctrl playing_world)
  ∧ calls (DeleteFile calm "other" playing_world).1
    = StreamDelete "/var/pp/files/other.protostream" :: calls playing_world.
Proof.
  destruct (DeleteFile_other_name calm "other" playing_world eq_refl)
    as (Hc & _ & Hcalls & _).
  - by left.
  - right. by vm_compute.
  - split; [by rewrite Hc|exact Hcalls].
Defined.

(** ** Playback leases *)

Lemma exact_idle (w w' : World) :
  playback_leases_exact w → player (ctrl w) = None → player (ctrl w') = None →
  (∀ l, multiplicity (proxy.PlaybackLeaser l) (proxy.leases (ProxyManager w'))
        = multiplicity (proxy.PlaybackLeaser l) (proxy.leases (ProxyManager w))) →
  playback_leases_exact w'.
Proof.
  intros Hw Hp Hp' Hl l. rewrite Hl, (Hw l), Hp, Hp'. done.
Qed.

Lemma stopTaskLocked_exact (e : env) (w : World) :
  playback_leases_exact w → playback_leases_exact (stopTaskLocked e w).
Proof.
  unfold playback_leases_exact, stopTaskLocked, Recorder_Stop.
  open_world w; simpl. intros Hw l. specialize (Hw l).
  destruct pl as [[leaser path paused]|], arl, rl, rc; simpl in *;
    try destruct (recorder_stop e); simpl; try done;
    rewrite multiplicity_difference, Hw;
    (destruct (decide (leaser = proxy.PlaybackLeaser l)) as [->|Hne];
     [ rewrite bool_decide_true by done;
       rewrite multiplicity_singleton, decide_True by done; simpl; lia
     | rewrite bool_decide_false by congruence;
       rewrite multiplicity_singleton_ne by done; simpl; lia ]).
Qed.

Lemma recordFileLocked_exact e name w :
  playback_leases_exact w → playback_leases_exact (recordFileLocked e name w).1.
Proof.
  intros Hw. apply (stopTaskLocked_exact e) in Hw.
  pose proof (stopTaskLocked_idle e w) as [Hp _].
  unfold recordFileLocked, Storage_OpenWriter.
  destruct (stopTaskLocked e w) as [c pm st d s h cs]. simpl in *.
  destruct (open_writer e); simpl; intros l; specialize (Hw l); simpl in *;
    by rewrite ?Hp in *.
Qed.

Lemma playFileLocked_exact e name w :
  playback_leases_exact w → playback_leases_exact (playFileLocked e name w).1.
Proof.
  intros Hw. apply (stopTaskLocked_exact e) in Hw.
  pose proof (stopTaskLocked_idle e w) as [Hp _].
  unfold playFileLocked, Storage_OpenReader.
  destruct (stopTaskLocked e w) as [c pm st d s h cs]. simpl in *.
  destruct (open_reader e); simpl; intros l; specialize (Hw l); simpl in *;
    rewrite ?Hp in *; simpl in *; [done|].
  rewrite multiplicity_disj_union, Hw. simpl.
  destruct (decide (h = l)) as [->|Hne].
  - rewrite bool_decide_true by done.
    by rewrite multiplicity_singleton, decide_True.
  - rewrite bool_decide_false by congruence.
    rewrite multiplicity_singleton_ne by congruence. done.
Qed.

Lemma pauseFileLocked_exact w :
  playback_leases_exact w → playback_leases_exact (pauseFileLocked w).1.
Proof.
  unfold playback_leases_exact, pauseFileLocked. open_world w; simpl.
  intros Hw l. specialize (Hw l).
  destruct pl as [p|], arl; simpl in *; try destruct (0 <? delay)%Z; simpl; done.
Qed.

Lemma resumeFileLocked_exact w :
  playback_leases_exact w → playback_leases_exact (resumeFileLocked w).1.
Proof.
  unfold playback_leases_exact, resumeFileLocked. open_world w; simpl.
  intros Hw l. specialize (Hw l).
  destruct pl as [p|], arl; simpl in *; done.
Qed.

Lemma exact_same (w w' : World) :
  playback_leases_exact w →
  player (ctrl w') = player (ctrl w) →
  proxy.leases (ProxyManager w') = proxy.leases (ProxyManager w) →
  playback_leases_exact w'.
Proof. unfold playback_leases_exact. by intros ? -> ->. Qed.

Lemma deleteFileLocked_exact e name w :
  playback_leases_exact w → playback_leases_exact (deleteFileLocked e name w).1.
Proof.
  intros Hw. unfold deleteFileLocked.
  eapply exact_same;
    [|by rewrite Storage_DeleteFile_ctrl|by rewrite Storage_DeleteFile_pm].
  repeat match goal with
         | |- context [if ?b then stopTaskLocked e ?v else _] => destruct b
         end; repeat apply stopTaskLocked_exact; done.
Qed.

Lemma SetProxyForwarding_exact forward w :
  playback_leases_exact w → playback_leases_exact (SetProxyForwarding forward w).1.
Proof.
  unfold playback_leases_exact, SetProxyForwarding. open_world w; simpl.
  intros Hw l. specialize (Hw l). destruct forward; simpl.
  - rewrite multiplicity_difference, multiplicity_singleton_ne by done. lia.
  - rewrite multiplicity_disj_union, multiplicity_singleton_ne by done. lia.
Qed.

Lemma listener_detached_exact (w : World) :
  playback_leases_exact w →
  playback_leases_exact
    match recorderListener (ctrl w) with
    | Some l => on_pm (proxy.RemoveListener l) w
    | None => w
    end.
Proof. destruct (recorderListener (ctrl w)); [|done]. by destruct w. Qed.

Lemma locked_exact e o w :
  playback_leases_exact w → playback_leases_exact (exec_raced e o w).
Proof.
  intros Hw. destruct o; cbn [exec_raced exec returned fst].
  - unfold Run_enter. destruct (Storage_GetDefault e w) as [n [err|]]; [done|].
    destruct (isRunning (ctrl w)); [done|]. simpl.
    apply stopTaskLocked_exact. by destruct w.
  - unfold Run_exit. apply (exact_same (stopTaskLocked e
        (on_pm (proxy.RemoveLease proxy.ControllerLease) w))); [|done..].
    apply stopTaskLocked_exact. by apply (SetProxyForwarding_exact true).
  - by apply recordFileLocked_exact.
  - eapply exact_same; [done|by rewrite MergeFiles_ctrl|].
    unfold MergeFiles, Storage_MergeFiles.
    destruct (decide _); [done|]. by destruct (stream_merge e).
  - by apply stopTaskLocked_exact.
  - by apply playFileLocked_exact.
  - by apply pauseFileLocked_exact.
  - by apply resumeFileLocked_exact.
  - by apply deleteFileLocked_exact.
  - eapply exact_same; [done|by rewrite Storage_SetDefault_ctrl|].
    unfold Storage_SetDefault. by destruct (storage.SetDefault _ _ _ _ _ _).
  - by apply SetProxyForwarding_exact.
  - by apply stopTaskLocked_exact.
  - by apply stopTaskLocked_exact, listener_detached_exact.
Qed.

Lemma exec_exact e o w :
  playback_leases_exact w → playback_leases_exact (exec e o w).1.
Proof.
  intros Hw.
  destruct o; cbn [exec returned fst];
    unfold RecordFile, PlayFile, PauseFile, ResumeFile, DeleteFile,
      SetDefaultFile, Shutdown, recorderListener_failed, Stop; cbn [fst];
    try apply guarded_keeps; try done;
    try (by apply (locked_exact e OpRunEnter));
    try (by apply (locked_exact e OpRunExit)).
  - by apply (locked_exact e (OpRecordFile name)).
  - by apply (locked_exact e (OpMergeFiles name srcs)).
  - by apply (locked_exact e OpStop).
  - by apply (locked_exact e (OpPlayFile name)).
  - by apply (locked_exact e OpPauseFile).
  - by apply (locked_exact e OpResumeFile).
  - by apply (locked_exact e (OpDeleteFile name)).
  - by apply (locked_exact e (OpSetDefaultFile name)).
  - by apply (locked_exact e (OpSetProxyForwarding forward)).
  - by apply (locked_exact e OpStop).
  - by apply listener_detached_exact.
  - by apply stopTaskLocked_exact, listener_detached_exact.
Qed.

(** X7. No playback lease outlives its player.  In every reachable state
    the lease set holds the lease of the installed player's leaser exactly
    once and no other playback lease; so with no player installed and the
    controller's own lease absent, forwarding is enabled. *)
Theorem playback_lease_follows_player (w : World) :
  reachable w →
  playback_leases_exact w
  ∧ (player (ctrl w) = None →
     proxy.ControllerLease ∉ proxy.leases (ProxyManager w) →
     proxy.Forwarding (ProxyManager w) = true).
Proof.
  intros Hw.
  assert (playback_leases_exact w) as Hexact.
  { induction Hw as [delay pm st d s|e o w _ IH|e o w _ IH].
    - by intros l.
    - by apply exec_exact.
    - by apply locked_exact. }
  split; [done|]. intros Hp Hc.
  unfold proxy.Forwarding. apply bool_decide_eq_true.
  apply gmultiset_eq. intros [|l].
  - apply not_elem_of_multiplicity in Hc. rewrite Hc.
    by rewrite multiplicity_empty.
  - rewrite (Hexact l), Hp, multiplicity_empty. done.
Qed.

Lemma playback_lease_follows_player_witness :
  reachable playing_world
  ∧ multiplicity (proxy.PlaybackLeaser 0)
      (proxy.leases (ProxyManager playing_world)) = 1%nat.
Proof.
  assert (reachable playing_world) as H
    by (apply reach_exec, reach_exec, reach_boot).
  split; [exact H|].
  exact (proj1 (playback_lease_follows_player playing_world H) 0%nat).
Defined.

(** * Further properties of storage names *)



Lemma hex_digits (r : rune) : string_forall hex_digit (gostrings.hex r) = true.
Proof.
  unfold gostrings.hex.
  assert (∀ d, string_forall hex_digit (NilEmpty.string_of_uint d) = true) as Hd.
  { induction d; simpl; auto. }
  destruct (N.to_hex_uint r) eqn:E; try apply Hd. done.
Qed.

Lemma hex_inj (a b : rune) : gostrings.hex a = gostrings.hex b → a = b.
Proof.
  unfold gostrings.hex. intros H.
  assert (∀ n, N.to_hex_uint n ≠ Hexadecimal.Nil) as Hnn.
  { intros [|q]; [done|]. apply HexadecimalPos.Unsigned.to_uint_nonnil. }
  apply (f_equal NilZero.uint_of_string) in H.
  rewrite !NilZero.usu in H by apply Hnn.
  apply HexadecimalN.Unsigned.to_uint_inj. congruence.
Qed.


Lemma hex_digit_not_underscore (c : ascii) : hex_digit c = true → c ≠ "_"%char.
Proof. intros H ->. done. Qed.



Lemma string_app_inv_tail (a b c : string) : a +:+ c = b +:+ c → a = b.
Proof.
  revert b. induction a as [|x a IH]; intros [|y b] H.
  - done.
  - apply (f_equal String.length) in H. rewrite !string_length_app in H.
    simpl in H. lia.
  - apply (f_equal String.length) in H. rewrite !string_length_app in H.
    simpl in H. lia.
  - rewrite !string_app_cons in H. injection H as -> H. f_equal. by apply IH.
Qed.

Lemma Join_inj (dir a b : string) :
  filepath.Join dir a = filepath.Join dir b → a = b.
Proof.
  unfold filepath.Join. repeat case_decide; try done.
  - by intros ?%(inj (String.append _)).
  - intros E. apply (inj (String.append _)) in E.
    by apply (inj (String.append "/")) in E.
Qed.



Lemma underscore_split (s1 s2 x y : string) :
  string_forall hex_digit s1 = true → string_forall hex_digit s2 = true →
  s1 +:+ "_" +:+ x = s2 +:+ "_" +:+ y → s1 = s2 ∧ x = y.
Proof.
  revert s2. induction s1 as [|c s1 IH]; intros [|d s2] H1 H2 E.
  - by injection E.
  - rewrite string_app_cons in E. injection E as <- _. by simpl in H2.
  - rewrite string_app_cons in E. injection E as -> _. by simpl in H1.
  - rewrite !string_app_cons in E. injection E as -> E.
    simpl in H1, H2.
    apply andb_true_iff in H1 as [_ H1]. apply andb_true_iff in H2 as [_ H2].
    destruct (IH s2 H1 H2 E) as [-> ->]. done.
Qed.

Lemma alnum_byte (r : rune) :
  ascii_alnum r = true → r < 256 ∧ ascii_of_N r ≠ "_"%char.
Proof.
  intros Hr.
  assert (r < 256 ∧ r ≠ 0x5F) as [Hlt Hne].
  { revert Hr. unfold ascii_alnum, between. by_ranges. }
  split; [done|]. intros E. apply (f_equal N_of_ascii) in E.
  rewrite N_ascii_embedding in E by done. done.
Qed.

Lemma escapes_inj (rs1 rs2 : list rune) :
  concat_strings (escape <$> rs1) = concat_strings (escape <$> rs2) → rs1 = rs2.
Proof.
  revert rs2. induction rs1 as [|a rs1 IH]; intros [|b rs2]; simpl.
  - done.
  - unfold escape. destruct (ascii_alnum b); by intros [=].
  - unfold escape. destruct (ascii_alnum a); by intros [=].
  - unfold escape.
    destruct (ascii_alnum a) eqn:Ha, (ascii_alnum b) eqn:Hb.
    + destruct (alnum_byte a Ha) as [Hal _], (alnum_byte b Hb) as [Hbl _].
      unfold byte_str. rewrite !string_app_cons. intros [= E1 E2].
      apply (f_equal N_of_ascii) in E1.
      rewrite !N_ascii_embedding in E1 by done. subst b.
      f_equal. by apply IH.
    + destruct (alnum_byte a Ha) as [_ Hne].
      unfold byte_str. rewrite !string_app_cons. by intros [= E1 _].
    + destruct (alnum_byte b Hb) as [_ Hne].
      unfold byte_str. rewrite !string_app_cons. by intros [= E1 _].
    + rewrite !string_app_assoc, !string_app_cons. intros [= E].
      change (String "_" ?x) with ("_" +:+ x) in E.
      rewrite <- !(string_app_assoc _ "_") in E.
      rewrite !(string_app_assoc (gostrings.hex _)) in E.
      apply underscore_split in E as [E1 E2]; try apply hex_digits.
      apply hex_inj in E1 as ->. f_equal. by apply IH.
Qed.

(** X9. Two names stand for the same stream exactly when their trimmed
    forms decode to the same runes: the escaping of file IDs is injective,
    so the paths and the IDs of two names are equal if and only if the rune
    sequences of the two canonical names are. *)
Theorem same_path_iff_same_runes (st : storage.S) (a b : string) :
  (storage.Path (storage.makeFileForName st a)
   = storage.Path (storage.makeFileForName st b)
   ↔ utf8.runes (gostrings.TrimSpace a) = utf8.runes (gostrings.TrimSpace b))
  ∧ (storage.ID (storage.makeFileForName st a)
     = storage.ID (storage.makeFileForName st b)
     ↔ utf8.runes (gostrings.TrimSpace a) = utf8.runes (gostrings.TrimSpace b)).
Proof.
  assert (∀ x y, storage.fileIDFromDisplayName x = storage.fileIDFromDisplayName y
                 ↔ utf8.runes x = utf8.runes y) as Hid.
  { intros x y. rewrite !fileIDFromDisplayName_escapes. split.
    - apply escapes_inj.
    - by intros ->. }
  split; [|apply Hid]. simpl. unfold storage.sanitizeDisplayName.
  rewrite <- Hid. split.
  - intros E%Join_inj. by apply string_app_inv_tail in E.
  - by intros ->.
Qed.

Lemma same_path_iff_same_runes_witness :
  utf8.runes (gostrings.TrimSpace " show")
  = utf8.runes (gostrings.TrimSpace "show ")
  ∧ storage.Path (storage.makeFileForName demo_storage " show")
    = storage.Path (storage.makeFileForName demo_storage "show ").
Proof.
  split; [reflexivity|].
  apply (proj1 (same_path_iff_same_runes demo_storage " show" "show ")).
  reflexivity.
Defined.

(** ** Trimming and decoding *)

Lemma tokens_unfold (s : string) :
  utf8.tokens s
  = match first_token s with
    | None => []
    | Some (t, rest) => t :: utf8.tokens rest
    end.
Proof.
  destruct s as [|c0 s1]; [done|].
  unfold first_token. cbn [utf8.tokens].
  destruct (byte_val c0 <? utf8.RuneSelf); [done|].
  destruct (utf8.first (byte_val c0)) as [[[sz lo] hi]|]; [|done].
  destruct s1 as [|c1 s2]; [done|].
  destruct (negb (between lo hi (byte_val c1))); [done|].
  destruct (sz =? 2)%nat; [done|].
  destruct s2 as [|c2 s3]; [done|].
  destruct (negb (utf8.cont (byte_val c2))); [done|].
  destruct (sz =? 3)%nat; [done|].
  destruct s3 as [|c3 s4]; [done|].
  by destruct (negb (utf8.cont (byte_val c3))).
Qed.

Lemma first_accepts_cont (b0 b : N) (sz : nat) (lo hi : N) :
  utf8.first b0 = Some (sz, lo, hi) → between lo hi b = true → utf8.cont b = true.
Proof.
  unfold utf8.first. intros H.
  repeat match type of H with
         | (if ?c then _ else _) = _ => destruct c
         end; try done; injection H as <- <- <-;
    unfold utf8.cont, between; by_ranges.
Qed.

Lemma first_lead (b0 : N) (sz : nat) (lo hi : N) :
  utf8.first b0 = Some (sz, lo, hi) → utf8.cont b0 = false.
Proof.
  unfold utf8.first, utf8.cont, between. by_ranges; done.
Qed.

Ltac first_token_cases s H :=
  destruct s as [|? ?]; [done|];
  cbv beta iota zeta delta [first_token] in H;
  repeat (match type of H with
          | (if ?c then _ else _) = _ => destruct c eqn:?
          | match ?x with Some _ => _ | None => _ end = _ =>
            destruct x as [[[? ?] ?]|] eqn:?
          | match ?x with EmptyString => _ | String _ _ => _ end = _ =>
            destruct x as [|? ?]
          end; cbv beta iota zeta in H);
  injection H as <- <-.

Lemma first_token_spec (s : string) (t : utf8.token) (r : string) :
  first_token s = Some (t, r) →
  s = t.2 +:+ r ∧ (String.length r < String.length s)%nat.
Proof.
  intros H. first_token_cases s H; simpl; split; try done; lia.
Qed.

Lemma first_token_space_boundary (s : string) (t : utf8.token) (r : string) :
  first_token s = Some (t, r) → unicode.IsSpace t.1 = true → boundary t.2.
Proof.
  intros H. first_token_cases s H; simpl; try done; intros _;
    try (by eapply first_lead).
  match goal with
  | E : (_ <? _) = true |- _ =>
    revert E; unfold utf8.cont, utf8.RuneSelf, between; by_ranges
  end.
Qed.

Lemma first_token_app (s1 s2 : string) (t : utf8.token) (r : string) :
  boundary s2 →
  first_token s1 = Some (t, r) →
  first_token (s1 +:+ s2) = Some (t, r +:+ s2).
Proof.
  intros Hb H. first_token_cases s1 H;
    rewrite ?string_app_cons; cbv beta iota zeta delta [first_token];
    repeat match goal with
           | E : ?c = _ |- context [?c] => rewrite E
           end;
    cbv beta iota zeta; try done;
    change ("" +:+ s2) with s2; destruct s2 as [|d s2]; try done;
    simpl in Hb; rewrite ?Hb; try done.
  all: match goal with
       | E : utf8.first _ = Some (_, ?lo, ?hi) |- _ =>
         destruct (between lo hi (byte_val d)) eqn:Hacc;
         [apply (first_accepts_cont _ _ _ _ _ E) in Hacc; congruence|done]
       end.
Qed.

Lemma tokens_app_bounded (n : nat) (s1 s2 : string) :
  (String.length s1 ≤ n)%nat → boundary s2 →
  utf8.tokens (s1 +:+ s2) = (utf8.tokens s1 ++ utf8.tokens s2)%list.
Proof.
  revert s1. induction n as [|n IH]; intros s1 Hlen Hb.
  - destruct s1; [done|simpl in Hlen; lia].
  - rewrite (tokens_unfold s1).
    destruct (first_token s1) as [[t r]|] eqn:Hft.
    + rewrite (tokens_unfold (s1 +:+ s2)), (first_token_app s1 s2 t r Hb Hft).
      apply first_token_spec in Hft as [_ Hlt].
      rewrite IH by (done || lia). done.
    + destruct s1 as [|c s1]; [done|]. exfalso. revert Hft.
      cbv beta iota zeta delta [first_token].
      repeat case_match; done.
Qed.

Lemma tokens_app (s1 s2 : string) :
  boundary s2 → utf8.tokens (s1 +:+ s2) = (utf8.tokens s1 ++ utf8.tokens s2)%list.
Proof. by apply (tokens_app_bounded (String.length s1)). Qed.

Lemma untokens_app (ts1 ts2 : list utf8.token) :
  utf8.untokens (ts1 ++ ts2)%list = utf8.untokens ts1 +:+ utf8.untokens ts2.
Proof.
  induction ts1 as [|t ts1 IH]; [done|]. simpl.
  by rewrite IH, string_app_assoc.
Qed.

Lemma untokens_tokens_bounded (n : nat) (s : string) :
  (String.length s ≤ n)%nat → utf8.untokens (utf8.tokens s) = s.
Proof.
  revert s. induction n as [|n IH]; intros s Hlen.
  - destruct s; [done|simpl in Hlen; lia].
  - rewrite tokens_unfold. destruct (first_token s) as [[t r]|] eqn:Hft.
    + apply first_token_spec in Hft as [-> Hlt]. simpl.
      rewrite IH; [done|]. lia.
    + destruct s as [|c s]; [done|]. exfalso. revert Hft.
      cbv beta iota zeta delta [first_token].
      repeat case_match; done.
Qed.

Lemma untokens_tokens (s : string) : utf8.untokens (utf8.tokens s) = s.
Proof. by apply (untokens_tokens_bounded (String.length s)). Qed.

(** A list of tokens that decoding gives back. *)
Lemma tokens_suffix (pre rest : list utf8.token) (s : string) :
  utf8.tokens s = (pre ++ rest)%list → utf8.tokens (utf8.untokens rest) = rest.
Proof.
  revert s. induction pre as [|t pre IH]; intros s Hs.
  - simpl in Hs. by rewrite <- Hs, untokens_tokens.
  - rewrite tokens_unfold in Hs.
    destruct (first_token s) as [[t' r]|]; [|done].
    injection Hs as _ Hs. by apply (IH r).
Qed.

Lemma tokens_space_head (s : string) (t : utf8.token) (ts : list utf8.token) :
  utf8.tokens s = t :: ts → gostrings.is_space_token t = true → boundary t.2.
Proof.
  rewrite tokens_unfold. destruct (first_token s) as [[t' r]|] eqn:Hft; [|done].
  intros [= -> _]. by apply (first_token_space_boundary s t r).
Qed.

Lemma boundary_app (a b : string) : a ≠ "" → boundary a → boundary (a +:+ b).
Proof. by destruct a. Qed.

Lemma token_bytes_nonempty (s : string) (pre : list utf8.token)
    (t : utf8.token) (ts : list utf8.token) :
  utf8.tokens s = (pre ++ t :: ts)%list → t.2 ≠ "".
Proof.
  intros Hs. apply tokens_suffix in Hs. simpl in Hs.
  rewrite tokens_unfold in Hs.
  destruct (first_token _) as [[t' r]|] eqn:Hft; [|done].
  injection Hs as -> _. intros E.
  apply first_token_spec in Hft as [Heq Hlt]. rewrite Heq in Hlt.
  rewrite string_length_app, E in Hlt. simpl in Hlt. lia.
Qed.

Lemma drop_spaces_clean (ts : list utf8.token) :
  starts_clean (gostrings.drop_spaces ts).
Proof.
  induction ts as [|t ts IH]; [done|]. simpl.
  by destruct (gostrings.is_space_token t) eqn:Ht.
Qed.

Lemma drop_spaces_of_clean (ts : list utf8.token) :
  starts_clean ts → gostrings.drop_spaces ts = ts.
Proof. destruct ts as [|t ts]; [done|]. simpl. by intros ->. Qed.

Lemma drop_spaces_split (ts : list utf8.token) :
  ∃ pre, ts = (pre ++ gostrings.drop_spaces ts)%list
         ∧ Forall (λ t, gostrings.is_space_token t = true) pre.
Proof.
  induction ts as [|t ts (pre & Hts & Hpre)]; [by exists []|]. simpl.
  destruct (gostrings.is_space_token t) eqn:Ht.
  - exists (t :: pre). split; [by rewrite Hts at 1|]. by constructor.
  - by exists [].
Qed.

Lemma drop_spaces_snoc (ts : list utf8.token) (t : utf8.token) :
  gostrings.is_space_token t = false →
  gostrings.drop_spaces (ts ++ [t]) = (gostrings.drop_spaces ts ++ [t])%list.
Proof.
  intros Ht. induction ts as [|x ts IH]; simpl; [by rewrite Ht|].
  by destruct (gostrings.is_space_token x).
Qed.

Lemma trim_tokens_clean (ts : list utf8.token) :
  starts_clean (gostrings.trim_tokens ts)
  ∧ starts_clean (rev (gostrings.trim_tokens ts)).
Proof.
  unfold gostrings.trim_tokens. split.
  - pose proof (drop_spaces_clean ts) as Hc.
    destruct (gostrings.drop_spaces ts) as [|t l]; [done|]. simpl in *.
    rewrite drop_spaces_snoc by done. by rewrite rev_unit.
  - rewrite rev_involutive. apply drop_spaces_clean.
Qed.

Lemma trim_tokens_idempotent (ts : list utf8.token) :
  gostrings.trim_tokens (gostrings.trim_tokens ts) = gostrings.trim_tokens ts.
Proof.
  destruct (trim_tokens_clean ts) as [Hhead Hlast].
  unfold gostrings.trim_tokens at 1.
  rewrite (drop_spaces_of_clean _ Hhead), (drop_spaces_of_clean _ Hlast).
  apply rev_involutive.
Qed.

Lemma trim_tokens_split (ts : list utf8.token) :
  ∃ pre post,
    ts = (pre ++ gostrings.trim_tokens ts ++ post)%list
    ∧ Forall (λ t, gostrings.is_space_token t = true) post.
Proof.
  destruct (drop_spaces_split ts) as (pre & Hts & _).
  destruct (drop_spaces_split (rev (gostrings.drop_spaces ts))) as (q & Hq & Hqs).
  exists pre, (rev q). split; [|by apply List.Forall_rev].
  unfold gostrings.trim_tokens. rewrite <- rev_app_distr, <- Hq, rev_involutive.
  done.
Qed.

Lemma tokens_of_trimmed (v : string) :
  utf8.tokens (gostrings.TrimSpace v) = gostrings.trim_tokens (utf8.tokens v).
Proof.
  unfold gostrings.TrimSpace.
  destruct (trim_tokens_split (utf8.tokens v)) as (pre & post & Hv & Hpost).
  set (mid := gostrings.trim_tokens (utf8.tokens v)) in *.
  pose proof (tokens_suffix pre (mid ++ post) v Hv) as Hmp.
  assert (utf8.tokens (utf8.untokens post) = post) as Hp.
  { apply (tokens_suffix (pre ++ mid) post v). by rewrite <- app_assoc. }
  assert (boundary (utf8.untokens post)) as Hb.
  { destruct post as [|t post]; [done|]. simpl.
    apply boundary_app.
    - apply (token_bytes_nonempty v (pre ++ mid) t post). by rewrite <- app_assoc.
    - apply (tokens_space_head _ _ _ Hp). by inversion Hpost. }
  rewrite untokens_app, tokens_app, Hp in Hmp by done.
  by apply app_inv_tail in Hmp.
Qed.

(** X10. Trimming gives a canonical name.  The trimmed name decodes to the
    runes of the name without its leading and trailing white space, it
    neither starts nor ends with a white-space rune, trimming it again
    changes nothing, and the file made for the display name of a file is
    that file. *)
Theorem TrimSpace_canonical (v : string) :
  utf8.runes (gostrings.TrimSpace v) = (gostrings.trim_tokens (utf8.tokens v)).*1
  ∧ (∀ r, head (utf8.runes (gostrings.TrimSpace v)) = Some r →
          unicode.IsSpace r = false)
  ∧ (∀ r, last (utf8.runes (gostrings.TrimSpace v)) = Some r →
          unicode.IsSpace r = false)
  ∧ gostrings.TrimSpace (gostrings.TrimSpace v) = gostrings.TrimSpace v
  ∧ (∀ st, storage.makeFileForName st
             (storage.DisplayName (storage.makeFileForName st v))
           = storage.makeFileForName st v).
Proof.
  assert (gostrings.TrimSpace (gostrings.TrimSpace v) = gostrings.TrimSpace v)
    as Hidem.
  { unfold gostrings.TrimSpace at 1.
    by rewrite tokens_of_trimmed, trim_tokens_idempotent. }
  unfold utf8.runes. rewrite tokens_of_trimmed.
  destruct (trim_tokens_clean (utf8.tokens v)) as [Hhead Hlast].
  split; [done|]. split; [|split; [|split]].
  - intros r. destruct (gostrings.trim_tokens _) as [|t ts]; [done|].
    simpl. by intros [= <-].
  - intros r. rewrite <- (rev_involutive (gostrings.trim_tokens _)).
    destruct (rev (gostrings.trim_tokens _)) as [|t ts]; [done|].
    cbn [rev]. rewrite fmap_app. cbn [fmap list_fmap]. rewrite last_snoc.
    by intros [= <-].
  - done.
  - intros st. unfold storage.makeFileForName. simpl.
    unfold storage.sanitizeDisplayName. by rewrite Hidem.
Qed.

Lemma TrimSpace_canonical_witness :
  head (utf8.runes (gostrings.TrimSpace "  a b ")) = Some 97
  ∧ unicode.IsSpace 97 = false.
Proof.
  split; [reflexivity|].
  apply (proj1 (proj2 (TrimSpace_canonical "  a b "))). reflexivity.
Defined.

(** * Further properties of util *)




(** * Further properties of the memory logger *)

Lemma Get_reads (ml : logging.MemoryLogger) (l : list logging.Entry) :
  logging.count ml = Z.of_nat (length l) →
  (∀ i e, l !! i = Some e →
     (0 ≤ logging.index_at ml (Z.of_nat i))%Z
     ∧ logging.entries ml !! Z.to_nat (logging.index_at ml (Z.of_nat i))
       = Some (Some e)) →
  logging.Get ml = Some l.
Proof.
  intros Hc Hl. unfold logging.Get. rewrite Hc.
  cut (∀ rest acc, l = (acc ++ rest)%list →
         foldl
           (λ a i,
              match a with
              | None => None
              | Some result =>
                if (logging.index_at ml i <? 0)%Z then None else
                match logging.entries ml !! Z.to_nat (logging.index_at ml i) with
                | None => None
                | Some None => Some result
                | Some (Some e) => Some (result ++ [e])%list
                end
              end)
           (Some acc) (seqZ (Z.of_nat (length acc)) (Z.of_nat (length rest)))
         = Some l).
  { intros H. apply (H l []). done. }
  induction rest as [|e rest IH]; intros acc Hsplit.
  - simpl. by rewrite Hsplit, app_nil_r.
  - rewrite seqZ_cons by (simpl; lia). simpl foldl.
    destruct (Hl (length acc) e) as [H0 He].
    { rewrite Hsplit. by rewrite lookup_app_r, Nat.sub_diag by lia. }
    destruct (Z.ltb_spec (logging.index_at ml (Z.of_nat (length acc))) 0);
      [lia|].
    rewrite He.
    replace (Z.succ (Z.of_nat (length acc)))
      with (Z.of_nat (length (acc ++ [e])%list))
      by (rewrite length_app; simpl; lia).
    replace (Z.pred (Z.of_nat (S (length rest))))
      with (Z.of_nat (length rest)) by lia.
    apply IH. by rewrite <- app_assoc.
Qed.

Lemma most_recent_short {A} (n : nat) (l : list A) :
  (length l ≤ n)%nat → most_recent n l = l.
Proof.
  intros H. unfold most_recent.
  by replace (length l - n)%nat with 0%nat by lia.
Qed.

Lemma most_recent_length {A} (n : nat) (l : list A) :
  length (most_recent n l) = (length l `min` n)%nat.
Proof. unfold most_recent. rewrite length_drop. lia. Qed.

Lemma most_recent_snoc {A} (n : nat) (l : list A) (x : A) :
  (0 < n)%nat → (n ≤ length l)%nat →
  most_recent n (l ++ [x]) = (drop 1 (most_recent n l) ++ [x])%list.
Proof.
  intros Hn Hl. unfold most_recent.
  rewrite length_app, drop_drop. simpl.
  replace (length l + 1 - n)%nat with (length l - n + 1)%nat by lia.
  rewrite drop_app_le by lia. done.
Qed.

Lemma ring_Get (size minLevel : Z) (kept : list logging.Entry)
    (ml : logging.MemoryLogger) :
  ring size minLevel kept ml →
  logging.Get ml = Some (most_recent (Z.to_nat size) kept).
Proof.
  intros (_ & _ & Hc & [(-> & He & Hp) | [(Hlt & Hp & He) | (Hle & front & back & He & Hp & Hb & Hl)]]).
  - rewrite most_recent_short by (simpl; lia).
    apply Get_reads; [by rewrite Hc|]. intros i e. by rewrite lookup_nil.
  - rewrite most_recent_short by lia.
    apply Get_reads; [rewrite Hc; lia|].
    intros i e Hi. pose proof (lookup_lt_Some _ _ _ Hi) as Hlen.
    assert (logging.index_at ml (Z.of_nat i) = Z.of_nat i) as ->.
    { unfold logging.index_at. rewrite Hc, Hp, He.
      rewrite length_app, length_fmap, length_replicate.
      replace (Z.of_nat (length kept) - Z.of_nat (length kept `min` Z.to_nat size)
               + Z.of_nat i)%Z with (Z.of_nat i) by lia.
      destruct (Z.ltb_spec (Z.of_nat i) 0); [lia|].
      destruct (Z.leb_spec
                  (Z.of_nat (length kept + (Z.to_nat size - length kept)))
                  (Z.of_nat i)); [lia|done]. }
    split; [lia|]. rewrite Nat2Z.id, He.
    rewrite lookup_app_l by (rewrite length_fmap; lia).
    by rewrite list_lookup_fmap, Hi.
  - pose proof (most_recent_length (Z.to_nat size) kept) as Hlen.
    rewrite <- Hl in *. rewrite length_app in Hlen.
    apply Get_reads; [rewrite Hc, length_app; lia|].
    intros i e Hi. pose proof (lookup_lt_Some _ _ _ Hi) as Hi'.
    rewrite length_app in Hi'.
    unfold logging.index_at. rewrite Hc, Hp, He.
    rewrite length_fmap, length_app.
    destruct (decide (i < length back)%nat) as [Hib|Hib].
    + destruct (Z.ltb_spec
                  (Z.of_nat (length front)
                   - Z.of_nat (length kept `min` Z.to_nat size)
                   + Z.of_nat i) 0); [|lia].
      split; [lia|].
      replace (Z.to_nat _) with (length front + i)%nat by lia.
      rewrite list_lookup_fmap.
      rewrite lookup_app_r by lia.
      replace (length front + i - length front)%nat with i by lia.
      by rewrite lookup_app_l in Hi by lia; rewrite Hi.
    + destruct (Z.ltb_spec
                  (Z.of_nat (length front)
                   - Z.of_nat (length kept `min` Z.to_nat size)
                   + Z.of_nat i) 0); [lia|].
      destruct (Z.leb_spec
                  (Z.of_nat (length front + length back))
                  (Z.of_nat (length front)
                   - Z.of_nat (length kept `min` Z.to_nat size)
                   + Z.of_nat i)); [lia|].
      split; [lia|].
      replace (Z.to_nat _) with (i - length back)%nat by lia.
      rewrite list_lookup_fmap.
      rewrite lookup_app_l by lia.
      by rewrite lookup_app_r in Hi by lia; rewrite Hi.
Qed.

Lemma retained_one (minLevel : Z) (e : logging.Entry) :
  retained minLevel [e]
  = if (logging.Level e <? minLevel)%Z then [] else [e].
Proof.
  unfold retained. destruct (Z.ltb_spec (logging.Level e) minLevel).
  - rewrite filter_cons_False by lia. done.
  - rewrite filter_cons_True by lia. done.
Qed.

(** Writing into a buffer that is still filling up. *)
Lemma ring_fill (size minLevel : Z) (kept : list logging.Entry)
    (e : logging.Entry) (c p : Z) (ents : list (option logging.Entry)) :
  (length kept < Z.to_nat size)%nat →
  c = Z.of_nat (length kept) →
  p = Z.of_nat (length kept) →
  ents = ((Some <$> kept)
          ++ replicate (Z.to_nat size - length kept) None)%list →
  let len := Z.of_nat (length ents) in
  negb ((0 <=? p)%Z && (p <? len)%Z) = false
  ∧ ring size minLevel (kept ++ [e])
      {| logging.Size := size; logging.MinLevel := minLevel;
         logging.entries := <[Z.to_nat p := Some e]> ents;
         logging.pos := if (len <=? p + 1)%Z then 0%Z else (p + 1)%Z;
         logging.count := if (c <? len)%Z then (c + 1)%Z else c |}.
Proof.
  intros Hlt -> Hp Hents0 len.
  assert (len = Z.of_nat (Z.to_nat size)) as Hlen.
  { unfold len. rewrite Hents0, length_app, length_fmap, length_replicate. lia. }
  split.
  { destruct (Z.leb_spec 0 p); [|lia]. destruct (Z.ltb_spec p len); [done|lia]. }
  split; [done|]. split; [done|]. simpl.
  split.
  { rewrite length_app. simpl.
    destruct (Z.ltb_spec (Z.of_nat (length kept)) len); lia. }
  right.
  assert (<[Z.to_nat p := Some e]> ents
          = ((Some <$> (kept ++ [e]))
             ++ replicate (Z.to_nat size - length (kept ++ [e])) None)%list)
    as Hents.
  { rewrite Hents0, Hp, Nat2Z.id.
    rewrite insert_app_r_alt by (rewrite length_fmap; lia).
    rewrite length_fmap, Nat.sub_diag, length_app. simpl.
    replace (Z.to_nat size - length kept)%nat
      with (S (Z.to_nat size - (length kept + 1)))%nat by lia.
    simpl. rewrite fmap_app, <- app_assoc. done. }
  rewrite Hents.
  destruct (Z.leb_spec len (p + 1)) as [Hfull|Hmore].
  - right. split; [rewrite length_app; simpl; lia|].
    exists [], (kept ++ [e])%list.
    rewrite length_app. simpl.
    replace (Z.to_nat size - (length kept + 1))%nat with 0%nat by lia.
    simpl. rewrite !app_nil_r.
    split; [done|]. split; [done|]. split; [by destruct kept|].
    rewrite most_recent_short by (rewrite length_app; simpl; lia). done.
  - left. rewrite length_app. simpl. split; [lia|]. split; [lia|done].
Qed.

(** Writing into a full buffer overwrites its oldest entry. *)
Lemma ring_turn (size minLevel : Z) (kept front back : list logging.Entry)
    (e : logging.Entry) (c p : Z) (ents : list (option logging.Entry)) :
  (0 < size)%Z →
  (Z.to_nat size ≤ length kept)%nat →
  c = Z.of_nat (length kept `min` Z.to_nat size) →
  back ≠ [] →
  (back ++ front)%list = most_recent (Z.to_nat size) kept →
  p = Z.of_nat (length front) →
  ents = Some <$> (front ++ back)%list →
  let len := Z.of_nat (length ents) in
  negb ((0 <=? p)%Z && (p <? len)%Z) = false
  ∧ ring size minLevel (kept ++ [e])
      {| logging.Size := size; logging.MinLevel := minLevel;
         logging.entries := <[Z.to_nat p := Some e]> ents;
         logging.pos := if (len <=? p + 1)%Z then 0%Z else (p + 1)%Z;
         logging.count := if (c <? len)%Z then (c + 1)%Z else c |}.
Proof.
  intros Hsize Hle -> Hb Hl Hp Hents0 len.
  pose proof (most_recent_length (Z.to_nat size) kept) as Hn.
  rewrite <- Hl, length_app in Hn.
  destruct back as [|b back]; [done|]. simpl in Hn.
  assert (len = Z.of_nat (Z.to_nat size)) as Hlen.
  { unfold len. rewrite Hents0, length_fmap, length_app. simpl. lia. }
  split.
  { destruct (Z.leb_spec 0 p); [|lia].
    destruct (Z.ltb_spec p len); [done|lia]. }
  split; [done|]. split; [done|]. simpl.
  split.
  { rewrite length_app. simpl.
    destruct (Z.ltb_spec (Z.of_nat (length kept `min` Z.to_nat size)) len);
      lia. }
  right. right. split; [rewrite length_app; lia|].
  assert (<[Z.to_nat p := Some e]> ents
          = Some <$> ((front ++ [e]) ++ back)%list) as Hents.
  { rewrite Hents0, Hp, Nat2Z.id, <- list_fmap_insert.
    rewrite insert_app_r_alt, Nat.sub_diag by lia.
    simpl. by rewrite <- app_assoc. }
  rewrite Hents.
  assert (most_recent (Z.to_nat size) (kept ++ [e])
          = (back ++ front ++ [e])%list) as Hnew.
  { rewrite most_recent_snoc by lia. rewrite <- Hl. simpl.
    by rewrite drop_0, app_assoc. }
  destruct (Z.leb_spec len (p + 1)) as [Hfull|Hmore].
  - assert (back = []) as -> by (destruct back; [done|simpl in *; lia]).
    exists [], (front ++ [e])%list. rewrite app_nil_r. simpl.
    split; [done|]. split; [done|]. split; [by destruct front|].
    by rewrite Hnew.
  - exists (front ++ [e])%list, back.
    split; [done|]. split; [rewrite length_app; simpl; lia|].
    split; [destruct back; [simpl in *; lia|done]|].
    by rewrite Hnew.
Qed.

Lemma ring_Hook (size minLevel : Z) (kept : list logging.Entry)
    (ml : logging.MemoryLogger) (e : logging.Entry) :
  (0 < size)%Z →
  ring size minLevel kept ml →
  ∃ ml', logging.Hook e ml = Some ml'
         ∧ ring size minLevel (kept ++ retained minLevel [e])%list ml'.
Proof.
  intros Hsize Hring. rewrite retained_one.
  pose proof Hring as (HS & HM & Hc & Hcases).
  unfold logging.Hook. rewrite HM, HS.
  destruct (Z.ltb_spec (logging.Level e) minLevel) as [Hlvl|Hlvl].
  { exists ml. by rewrite app_nil_r. }
  destruct (Z.leb_spec size 0) as [|_]; [lia|].
  destruct Hcases as [(-> & He & Hp) | [(Hlt & Hp & He) | (Hle & front & back & He & Hp & Hb & Hl)]].
  - rewrite He. simpl length.
    destruct (Z.eqb_spec (Z.of_nat 0) size) as [|_]; [lia|].
    simpl negb. cbv iota beta.
    destruct (ring_fill size minLevel [] e (logging.count ml) 0
                (replicate (Z.to_nat size) None)) as [Hin Hr];
      [simpl; lia|by rewrite Hc|done|simpl; by rewrite Nat.sub_0_r|].
    cbv zeta in Hin, Hr. rewrite Hin. eauto.
  - destruct (ring_fill size minLevel kept e (logging.count ml)
                (logging.pos ml) (logging.entries ml)) as [Hin Hr];
      [done|rewrite Hc; lia|done..|].
    cbv zeta in Hin, Hr.
    destruct (Z.eqb_spec (Z.of_nat (length (logging.entries ml))) size)
      as [_|Hne].
    2:{ rewrite He, length_app, length_fmap, length_replicate in Hne. lia. }
    simpl negb. cbv iota beta. rewrite Hin. eauto.
  - destruct (ring_turn size minLevel kept front back e (logging.count ml)
                (logging.pos ml) (logging.entries ml))
      as [Hin Hr]; [done..|].
    cbv zeta in Hin, Hr.
    pose proof (most_recent_length (Z.to_nat size) kept) as Hn.
    rewrite <- Hl, length_app in Hn.
    destruct (Z.eqb_spec (Z.of_nat (length (logging.entries ml))) size)
      as [_|Hne].
    2:{ rewrite He, length_fmap, length_app in Hne. lia. }
    simpl negb. cbv iota beta. rewrite Hin. eauto.
Qed.

Lemma hooked_snoc (es : list logging.Entry) (e : logging.Entry)
    (ml : logging.MemoryLogger) :
  logging.hooked (es ++ [e]) ml
  = match logging.hooked es ml with
    | Some ml' => logging.Hook e ml'
    | None => None
    end.
Proof. unfold logging.hooked. by rewrite foldl_app. Qed.

Lemma hooked_ring (size minLevel : Z) (es : list logging.Entry) :
  (0 < size)%Z →
  ∃ ml, logging.hooked es (logging.new size minLevel) = Some ml
        ∧ ring size minLevel (retained minLevel es) ml.
Proof.
  intros Hsize. induction es as [|e es IH] using rev_ind.
  - exists (logging.new size minLevel). split; [done|].
    split; [done|]. split; [done|]. split; [done|]. by left.
  - destruct IH as (ml & Hml & Hring).
    destruct (ring_Hook size minLevel _ ml e Hsize Hring) as (ml' & Hh & Hr).
    exists ml'. rewrite hooked_snoc, Hml. split; [done|].
    unfold retained in *. by rewrite filter_app.
Qed.

(** X12.  A memory logger of positive [Size] never panics, and after any
    sequence of logged entries [Get] returns the most recent [Size] of the
    entries at or above [MinLevel], oldest first. *)
Theorem MemoryLogger_keeps_most_recent (size minLevel : Z)
    (es : list logging.Entry) :
  (0 < size)%Z →
  ∃ ml, logging.hooked es (logging.new size minLevel) = Some ml
        ∧ logging.Get ml
          = Some (most_recent (Z.to_nat size) (retained minLevel es)).
Proof.
  intros Hsize.
  destruct (hooked_ring size minLevel es Hsize) as (ml & Hml & Hring).
  exists ml. split; [done|]. by apply (ring_Get size minLevel).
Qed.

Lemma MemoryLogger_keeps_most_recent_witness :
  (0 < 2)%Z
  ∧ ∃ ml,
      logging.hooked
        [ {| logging.Level := 0; logging.Message := "a" |};
          {| logging.Level := -1; logging.Message := "b" |};
          {| logging.Level := 1; logging.Message := "c" |};
          {| logging.Level := 2; logging.Message := "d" |} ]
        (logging.new 2 0) = Some ml
      ∧ logging.Get ml
        = Some [ {| logging.Level := 1; logging.Message := "c" |};
                 {| logging.Level := 2; logging.Message := "d" |} ].
Proof.
  split; [lia|].
  apply (MemoryLogger_keeps_most_recent 2 0
           [ {| logging.Level := 0; logging.Message := "a" |};
             {| logging.Level := -1; logging.Message := "b" |};
             {| logging.Level := 1; logging.Message := "c" |};
             {| logging.Level := 2; logging.Message := "d" |} ]).
  lia.
Defined.

(** X13.  A memory logger whose [Size] is not positive ignores the entries
    below [MinLevel] and panics at the first entry at or above it. *)
Theorem MemoryLogger_without_size_panics (ml : logging.MemoryLogger)
    (es : list logging.Entry) :
  (logging.Size ml ≤ 0)%Z →
  logging.hooked es ml
  = if decide (retained (logging.MinLevel ml) es = []) then Some ml else None.
Proof.
  intros Hsize. induction es as [|e es IH] using rev_ind; [done|].
  rewrite hooked_snoc, IH. unfold retained in *. rewrite filter_app.
  fold (retained (logging.MinLevel ml) [e]). rewrite retained_one.
  destruct (decide (filter _ es = [])) as [->|Hne].
  - unfold logging.Hook.
    destruct (Z.ltb_spec (logging.Level e) (logging.MinLevel ml)); [done|].
    destruct (Z.leb_spec (logging.Size ml) 0); [|lia].
    by rewrite decide_False.
  - rewrite decide_False; [done|].
    intros [? _]%app_eq_nil. done.
Qed.

Lemma MemoryLogger_without_size_panics_witness :
  (logging.Size (logging.new 0 0) ≤ 0)%Z
  ∧ logging.hooked
      [ {| logging.Level := -1; logging.Message := "debug" |};
        {| logging.Level := 0; logging.Message := "info" |} ]
      (logging.new 0 0) = None.
Proof.
  split; [simpl; lia|].
  apply (MemoryLogger_without_size_panics (logging.new 0 0)
           [ {| logging.Level := -1; logging.Message := "debug" |};
             {| logging.Level := 0; logging.Message := "info" |} ]).
  simpl; lia.
Defined.

(** * Further properties of the sleeper *)

(** X14.  The single-use [Sleep] panics in its deferred [Close] exactly
    when [Sleeper.Sleep] returned before creating the timer: for a duration
    that is not positive, or a context already done.  Otherwise it returns
    the context's error if the context finished first, and nil if the timer
    ticked. *)
Theorem Sleep_outcome {E} (cerr : E) (ev : util.sleep_env) (d : Z) :
  (util.Sleep cerr ev d = util.Panicked
   ↔ (d ≤ 0)%Z ∨ util.done_at_entry ev = true)
  ∧ ((0 < d)%Z → util.done_at_entry ev = false →
     util.Sleep cerr ev d
     = util.Returned (if util.done_before_tick ev then Some cerr else None)).
Proof.
  unfold util.Sleep, util.Sleeper_Sleep.
  destruct (Z.leb_spec d 0) as [Hd|Hd]; simpl.
  { split; [split; [by left|done]|lia]. }
  destruct ev as [[] []]; cbn.
  all: split; [split; [intros ?; first [done | by right]
                      |intros [?|?]; first [lia | done]]
              |intros; done].
Qed.

Lemma Sleep_outcome_witness :
  (0 < 5)%Z
  ∧ util.Sleep EEXIST
      {| util.done_at_entry := false; util.done_before_tick := true |} 5
    = util.Returned (Some EEXIST).
Proof.
  split; [lia|].
  apply (proj2 (Sleep_outcome EEXIST
                  {| util.done_at_entry := false;
                     util.done_before_tick := true |} 5)); [lia|reflexivity].
Defined.

Lemma LoopUntil_loop_with_timer {E} (cerr : E)
    (rounds : list (option E * util.sleep_env)) (s : util.Sleeper) (p : Z) :
  (0 < p)%Z → is_Some (util.t s) →
  match util.LoopUntil_loop cerr rounds s p with
  | None => first_stop cerr rounds = None
  | Some (s', err) => is_Some (util.t s') ∧ first_stop cerr rounds = Some err
  end.
Proof.
  intros Hp. revert s.
  induction rounds as [|[[err|] ev] rounds IH]; intros s Hs; simpl; [done..|].
  unfold util.Sleeper_Sleep.
  destruct (Z.leb_spec p 0) as [|_]; [lia|].
  destruct ev as [[] []]; simpl; try done.
  apply IH. simpl. eauto.
Qed.

(** X15.  [LoopUntil] with a positive period.  A context cancelled at the
    start gives the context's error.  Otherwise the deferred [Close]
    panics, instead of the error being returned, when the loop ends before
    its sleeper has created the timer: when the first call of [fn] fails,
    or when the context is found done on entry to the first [Sleep].  Once
    the first [Sleep] has armed the timer, [LoopUntil] returns the error
    that ends the loop and never panics. *)
Theorem LoopUntil_outcome {E} (cerr : E) (r : option E) (ev : util.sleep_env)
    (rounds : list (option E * util.sleep_env)) (p : Z) :
  (0 < p)%Z →
  util.LoopUntil cerr true ((r, ev) :: rounds) p = Some (util.Returned cerr)
  ∧ (is_Some r ∨ util.done_at_entry ev = true →
     util.LoopUntil cerr false ((r, ev) :: rounds) p = Some util.Panicked)
  ∧ (r = None → util.done_at_entry ev = false →
     util.LoopUntil cerr false ((r, ev) :: rounds) p
     = util.Returned <$> first_stop cerr ((r, ev) :: rounds)).
Proof.
  intros Hp. split; [done|].
  unfold util.LoopUntil. simpl. unfold util.Sleeper_Sleep.
  destruct (Z.leb_spec p 0) as [|_]; [lia|].
  split.
  - intros [[err ->]|Hev]; [done|]. rewrite Hev.
    by destruct r.
  - intros -> ->. simpl.
    destruct (util.done_before_tick ev); [done|].
    pose proof (LoopUntil_loop_with_timer cerr rounds
                  {| util.t := Some (util.NewTimer p) |} p Hp) as H.
    destruct (util.LoopUntil_loop cerr rounds _ p) as [[s' err]|].
    + destruct H as [[tm Htm] ->]; [simpl; eauto|].
      unfold util.closing, util.Sleeper_Close. by rewrite Htm.
    + by rewrite H by (simpl; eauto).
Qed.

Lemma LoopUntil_outcome_witness :
  (0 < 1000)%Z
  ∧ util.LoopUntil EEXIST false
      [(None, {| util.done_at_entry := true; util.done_before_tick := false |})]
      1000
    = Some util.Panicked.
Proof.
  split; [lia|].
  refine (proj1 (proj2 (LoopUntil_outcome EEXIST None
                          {| util.done_at_entry := true;
                             util.done_before_tick := false |} [] 1000 _)) _);
    [lia|by right].
Defined.

(** X16.  [LoopUntil] with a period that is not positive never creates the
    timer: cancelling the context does not end the loop, it runs until
    [fn] fails, and then the deferred [Close] panics. *)
Theorem LoopUntil_without_period {E} (cerr : E)
    (rounds : list (option E * util.sleep_env)) (p : Z) :
  (p ≤ 0)%Z →
  util.LoopUntil cerr false rounds p
  = (λ _, util.Panicked) <$> first_failure rounds.
Proof.
  intros Hp. unfold util.LoopUntil.
  cut (util.LoopUntil_loop cerr rounds {| util.t := None |} p
       = (λ err, ({| util.t := None |}, err)) <$> first_failure rounds).
  { intros ->. by destruct (first_failure rounds). }
  induction rounds as [|[[err|] ev] rounds IH]; simpl; [done..|].
  unfold util.Sleeper_Sleep.
  destruct (Z.leb_spec p 0) as [_|]; [|lia]. apply IH.
Qed.

Lemma LoopUntil_without_period_witness :
  (0 ≤ 0)%Z
  ∧ util.LoopUntil EEXIST false
      [(None, {| util.done_at_entry := true; util.done_before_tick := true |});
       (Some ENOENT,
        {| util.done_at_entry := false; util.done_before_tick := false |})]
      0
    = Some util.Panicked.
Proof.
  split; [lia|].
  apply (LoopUntil_without_period EEXIST
           [(None, {| util.done_at_entry := true;
                      util.done_before_tick := true |});
            (Some ENOENT,
             {| util.done_at_entry := false;
                util.done_before_tick := false |})] 0).
  lia.
Defined.

(** * Further properties of the asset loaders *)

Lemma AssetLoaderChain_Load_app (a b : list web.AssetLoader) (name : string) :
  web.AssetLoaderChain_Load (a ++ b) name
  = match web.AssetLoaderChain_Load a name with
    | (_, Some web.ErrNotFound) => web.AssetLoaderChain_Load b name
    | res => res
    end.
Proof.
  induction a as [|al a IH]; simpl; [done|].
  destruct (al name) as [data [[|e]|]]; try done.
Qed.

Lemma AssetLoaderChain_Load_error (alc : list web.AssetLoader) (name : string) :
  is_Some (web.AssetLoaderChain_Load alc name).2 →
  (web.AssetLoaderChain_Load alc name).1 = None.
Proof.
  induction alc as [|al alc IH]; simpl; [done|].
  destruct (al name) as [data [[|e]|]]; simpl; try done.
Qed.

(** X17.  A chain of asset loaders is itself a loader, and using it inside
    another chain is the same as splicing its loaders in: the first loader
    that answers with anything but [ErrNotFound] decides.  A result with an
    error carries no data. *)
Theorem AssetLoaderChain_Load_nested (a b c : list web.AssetLoader)
    (name : string) :
  web.AssetLoaderChain_Load (a ++ web.AssetLoaderChain_Load b :: c) name
  = web.AssetLoaderChain_Load (a ++ b ++ c) name
  ∧ ((web.AssetLoaderChain_Load a name).2 ≠ Some web.ErrNotFound →
     web.AssetLoaderChain_Load (a ++ b) name = web.AssetLoaderChain_Load a name)
  ∧ (is_Some (web.AssetLoaderChain_Load a name).2 →
     (web.AssetLoaderChain_Load a name).1 = None).
Proof.
  split; [|split].
  - rewrite !AssetLoaderChain_Load_app.
    destruct (web.AssetLoaderChain_Load a name) as [d [[|e]|]]; try done.
    simpl.
    pose proof (AssetLoaderChain_Load_error b name) as Hb.
    destruct (web.AssetLoaderChain_Load b name) as [d' [[|e]|]]; try done.
    simpl in Hb. by rewrite Hb by eauto.
  - rewrite AssetLoaderChain_Load_app.
    by destruct (web.AssetLoaderChain_Load a name) as [d [[|e]|]].
  - apply AssetLoaderChain_Load_error.
Qed.

Lemma AssetLoaderChain_Load_nested_witness :
  let missing : web.AssetLoader := λ _, (None, Some web.ErrNotFound) in
  let found : web.AssetLoader := λ _, (Some "body", None) in
  (web.AssetLoaderChain_Load [missing; found] "index.html").2
  ≠ Some web.ErrNotFound
  ∧ web.AssetLoaderChain_Load ([missing; found] ++ [missing]) "index.html"
    = (Some "body", None).
Proof.
  split; [done|].
  refine (eq_trans
            (proj1 (proj2 (AssetLoaderChain_Load_nested
                             [λ _, (None, Some web.ErrNotFound);
                              λ _, (Some "body", None)]
                             [λ _, (None, Some web.ErrNotFound)] []
                             "index.html")) _) _);
    [done|reflexivity].
Defined.

(** * Further properties of the directory listing *)

Lemma each_app {St E} (fn : St → os.FileInfo → St * option E)
    (a b : list os.FileInfo) (s : St) :
  util.each fn (a ++ b) s
  = match util.each fn a s with
    | (s', Some e) => (s', Some e)
    | (s', None) => util.each fn b s'
    end.
Proof.
  revert s. induction a as [|f a IH]; intros s; simpl; [done|].
  destruct (fn s f) as [s' [e|]]; [done|]. apply IH.
Qed.

Lemma ForEachFile_listing {St E} (fn : St → os.FileInfo → St * option E)
    (chunks : list (list os.FileInfo)) (last : list os.FileInfo)
    (more : list (list os.FileInfo * option os.readdir_error)) (s : St) :
  util.ForEachFile (listing chunks last more) fn s
  = Some (as_each_error (util.each fn (concat chunks ++ last) s)).
Proof.
  unfold util.ForEachFile, listing. simpl. revert s.
  induction chunks as [|c chunks IH]; intros s; simpl.
  - unfold as_each_error. by destruct (util.each fn last s) as [s' [e|]].
  - rewrite <- app_assoc, each_app.
    destruct (util.each fn c s) as [s' [e|]]; [done|]. apply IH.
Qed.

(** X18.  [ForEachFile] on a directory that hands out its entries in
    chunks calls the callback on every entry in order, whatever the
    chunks are, until a call fails; it returns that error, or nil when
    [Readdir] has reported the end.  When a [Readdir] fails instead, the
    entries returned with the failure are not visited, and the failure is
    returned unless a callback had failed before. *)
Theorem ForEachFile_chunking {St E} (fn : St → os.FileInfo → St * option E)
    (chunks : list (list os.FileInfo)) (last : list os.FileInfo)
    (more : list (list os.FileInfo * option os.readdir_error)) (s : St) :
  util.ForEachFile (listing chunks last more) fn s
  = Some (as_each_error (util.each fn (concat chunks ++ last) s))
  ∧ ∀ f,
      util.ForEachFile
        {| os.on_open := None; os.on_stat := inr true;
           os.reads := ((λ c, (c, None)) <$> chunks)
                       ++ (last, Some (os.EREAD f)) :: more |} fn s
      = Some (match util.each fn (concat chunks) s with
              | (s', Some e) => (s', Some (util.CallbackErr e))
              | (s', None) => (s', Some (util.DirErr (EFAULT f)))
              end).
Proof.
  split; [apply ForEachFile_listing|].
  unfold util.ForEachFile. simpl. intros f. revert s.
  induction chunks as [|c chunks IH]; intros s; simpl; [done|].
  rewrite each_app.
  destruct (util.each fn c s) as [s' [e|]]; [done|]. apply IH.
Qed.

Lemma substring_all (s : string) : String.substring 0 (String.length s) s = s.
Proof. induction s as [|c s IH]; [done|]. simpl. by rewrite IH. Qed.

Lemma substring_none (s : string) : String.substring 0 0 s = "".
Proof. by destruct s. Qed.

Lemma substring_app_l (p x : string) :
  String.substring 0 (String.length p) (p +:+ x) = p.
Proof.
  induction p as [|c p IH]; [apply substring_none|].
  rewrite string_app_cons. simpl. by rewrite IH.
Qed.

Lemma substring_app_r (p x : string) :
  String.substring (String.length p) (String.length x) (p +:+ x) = x.
Proof.
  induction p as [|c p IH]; [apply substring_all|].
  rewrite string_app_cons. simpl. apply IH.
Qed.

Lemma substring_split (s : string) (i : nat) :
  (i ≤ String.length s)%nat →
  s = String.substring 0 i s +:+ String.substring i (String.length s - i) s.
Proof.
  revert i. induction s as [|c s IH]; intros [|i] Hi; simpl in *; try lia.
  - done.
  - by rewrite substring_all.
  - rewrite string_app_cons. f_equal. apply IH. lia.
Qed.

Lemma get_app_r (p s : string) (n : nat) :
  String.get (String.length p + n) (p +:+ s) = String.get n s.
Proof.
  induction p as [|c p IH]; [done|]. rewrite string_app_cons. simpl. apply IH.
Qed.

Lemma TrimSuffix_app (p x : string) : gostrings.TrimSuffix (p +:+ x) x = p.
Proof.
  unfold gostrings.TrimSuffix, gostrings.HasSuffix.
  rewrite string_length_app.
  replace (String.length p + String.length x - String.length x)%nat
    with (String.length p) by lia.
  rewrite substring_app_r, String.eqb_refl, substring_app_l.
  destruct (Nat.leb_spec (String.length x) (String.length p + String.length x));
    [done|lia].
Qed.

Lemma Ext_from_skip (path : string) (n k : nat) :
  (∀ j, (n ≤ j < n + k)%nat →
        ∃ c, String.get j path = Some c
             ∧ filepath.IsPathSeparator c = false ∧ Ascii.eqb c "." = false) →
  filepath.Ext_from path (n + k) = filepath.Ext_from path n.
Proof.
  induction k as [|k IH]; intros H.
  - by rewrite Nat.add_0_r.
  - replace (n + S k)%nat with (S (n + k)) by lia. simpl.
    destruct (H (n + k)%nat) as (c & -> & -> & ->); [lia|].
    apply IH. intros j Hj. apply H. lia.
Qed.

Lemma string_forall_get (P : ascii → bool) (s : string) (i : nat) :
  string_forall P s = true → (i < String.length s)%nat →
  ∃ c, String.get i s = Some c ∧ P c = true.
Proof.
  revert i. induction s as [|c s IH]; intros i Hs Hi; simpl in *; [lia|].
  apply andb_true_iff in Hs as [Hc Hs].
  destruct i as [|i]; [eauto|]. apply IH; [done|lia].
Qed.

Lemma Ext_app_dot (p e : string) :
  string_forall
    (λ c, negb (filepath.IsPathSeparator c) && negb (Ascii.eqb c ".")) e = true →
  filepath.Ext (p +:+ String "." e) = String "." e.
Proof.
  intros He. unfold filepath.Ext. rewrite string_length_app. simpl.
  replace (String.length p + S (String.length e))%nat
    with (S (String.length p) + String.length e)%nat by lia.
  rewrite Ext_from_skip.
  - simpl. replace (String.length p) with (String.length p + 0)%nat at 1 by lia.
    rewrite get_app_r. simpl.
    rewrite string_length_app. simpl.
    replace (String.length p + S (String.length e) - String.length p)%nat
      with (String.length (String "." e)) by (simpl; lia).
    apply substring_app_r.
  - intros j Hj.
    destruct (string_forall_get _ e (j - S (String.length p)) He) as (c & Hc & HP);
      [lia|].
    exists c. apply andb_true_iff in HP as [H1 H2].
    apply negb_true_iff in H1, H2. split; [|done].
    replace j with (String.length p + S (j - S (String.length p)))%nat by lia.
    rewrite get_app_r. done.
Qed.

Lemma Ext_suffix (path : string) : ∃ p, path = p +:+ filepath.Ext path.
Proof.
  unfold filepath.Ext.
  cut (∀ n, (n ≤ String.length path)%nat →
            ∃ p, path = p +:+ filepath.Ext_from path n).
  { intros H. by apply H. }
  induction n as [|n IH]; intros Hn; simpl.
  - exists path. by rewrite string_app_nil_r.
  - destruct (String.get n path) as [c|];
      [|exists path; by rewrite string_app_nil_r].
    destruct (filepath.IsPathSeparator c);
      [exists path; by rewrite string_app_nil_r|].
    destruct (Ascii.eqb c ".").
    + eexists. apply substring_split. lia.
    + apply IH. lia.
Qed.

Lemma Ext_fileDataExt (id : string) :
  filepath.Ext (id +:+ storage.fileDataExt) = storage.fileDataExt.
Proof. by apply Ext_app_dot. Qed.

Lemma listed_as_spec (st : storage.S) (load : string → string + error)
    (files : list storage.File) (fi : os.FileInfo) :
  storage.ListFiles_fn st load files fi
  = ((files ++ option_list (listed_as st load fi))%list, None).
Proof.
  unfold listed_as, storage.ListFiles_fn, storage.loadFileFromPath.
  destruct (os.IsDir fi); simpl; [|by rewrite app_nil_r].
  destruct (String.eqb _ _); simpl; [|by rewrite app_nil_r].
  destruct (load _); simpl; [done|by rewrite app_nil_r].
Qed.

Lemma each_ListFiles (st : storage.S) (load : string → string + error)
    (entries : list os.FileInfo) (files : list storage.File) :
  util.each (storage.ListFiles_fn st load) entries files
  = ((files ++ omap (listed_as st load) entries)%list, None).
Proof.
  revert files. induction entries as [|fi entries IH]; intros files; simpl.
  - by rewrite app_nil_r.
  - rewrite listed_as_spec, IH, <- app_assoc.
    by destruct (listed_as st load fi).
Qed.

Lemma listed_as_Some (st : storage.S) (load : string → string + error)
    (fi : os.FileInfo) (f : storage.File) :
  listed_as st load fi = Some f
  ↔ os.IsDir fi = true
    ∧ os.Name fi = storage.ID f +:+ storage.fileDataExt
    ∧ storage.Path f = filepath.Join (storage.fileDir st) (os.Name fi)
    ∧ load (storage.Path f) = inl (storage.DisplayName f).
Proof.
  unfold listed_as, storage.ListFiles_fn, storage.loadFileFromPath.
  split.
  - destruct (os.IsDir fi); simpl; [|done].
    destruct (String.eqb_spec (filepath.Ext (os.Name fi)) storage.fileDataExt)
      as [Hext|]; simpl; [|done].
    destruct (load _) as [name|] eqn:Hload; simpl; [|done].
    intros [= <-]. simpl.
    destruct (Ext_suffix (os.Name fi)) as [p Hp]. rewrite Hext in Hp.
    rewrite Hp at 2 3. rewrite TrimSuffix_app. by rewrite <- Hp.
  - intros (-> & Hname & Hpath & Hload). simpl.
    rewrite Hname, Ext_fileDataExt, String.eqb_refl. simpl.
    rewrite TrimSuffix_app. rewrite Hname in Hpath. rewrite <- Hpath, Hload.
    simpl. by destruct f.
Qed.

(** X19.  [ListFiles] on a directory that can be read to its end returns no
    error, and the files it returns, in directory order, are exactly those
    of the entries that are directories, are named [ID] followed by
    [.protostream], and whose metadata loads: each has the entry's path,
    the [ID] read back from the entry's name and the display name of its
    metadata.  Other entries, the default file among them, are skipped. *)
Theorem ListFiles_lists_streams (st : storage.S)
    (load : string → string + error)
    (chunks : list (list os.FileInfo)) (last : list os.FileInfo)
    (more : list (list os.FileInfo * option os.readdir_error)) :
  ∃ files,
    storage.ListFiles st load (listing chunks last more) = Some (files, None)
    ∧ files = omap (listed_as st load) (concat chunks ++ last)%list
    ∧ ∀ f, f ∈ files
           ↔ ∃ fi, fi ∈ (concat chunks ++ last)%list
                   ∧ os.IsDir fi = true
                   ∧ os.Name fi = storage.ID f +:+ storage.fileDataExt
                   ∧ storage.Path f
                     = filepath.Join (storage.fileDir st) (os.Name fi)
                   ∧ load (storage.Path f) = inl (storage.DisplayName f).
Proof.
  exists (omap (listed_as st load) (concat chunks ++ last)%list).
  split; [|split; [done|]].
  - unfold storage.ListFiles. rewrite ForEachFile_listing, each_ListFiles.
    done.
  - intros f. rewrite list_elem_of_omap.
    split; intros (fi & Hfi & H); exists fi; (split; [done|]);
      by apply listed_as_Some.
Qed.

(** X20.  A stream stored under a name is listed as the file
    [makeFileForName] makes for that name: the directory entry at the
    file's path passes the extension filter, and the [ID] is read back
    from the entry's name. *)
Theorem ListFiles_finds_written_name (st : storage.S)
    (load : string → string + error) (name : string)
    (chunks : list (list os.FileInfo)) (last : list os.FileInfo)
    (more : list (list os.FileInfo * option os.readdir_error)) :
  let f := storage.makeFileForName st name in
  {| os.Name := storage.ID f +:+ storage.fileDataExt; os.IsDir := true |}
    ∈ (concat chunks ++ last)%list →
  load (storage.Path f) = inl (storage.DisplayName f) →
  ∃ files,
    storage.ListFiles st load (listing chunks last more) = Some (files, None)
    ∧ f ∈ files.
Proof.
  intros f Hin Hload.
  exists (omap (listed_as st load) (concat chunks ++ last)%list). split.
  - unfold storage.ListFiles. by rewrite ForEachFile_listing, each_ListFiles.
  - apply list_elem_of_omap. eexists. split; [exact Hin|].
    apply listed_as_Some. simpl. done.
Qed.

Lemma ListFiles_finds_written_name_witness :
  let entries :=
    [ {| os.Name := "default"; os.IsDir := false |};
      {| os.Name := "my_20_show.protostream"; os.IsDir := true |} ] in
  let load := λ _ : string, @inl string error "my show" in
  {| os.Name := storage.ID (storage.makeFileForName demo_storage " my show")
                +:+ storage.fileDataExt;
     os.IsDir := true |} ∈ (concat [entries] ++ [])%list
  ∧ ∃ files,
      storage.ListFiles demo_storage load (listing [entries] [] [])
      = Some (files, None)
      ∧ storage.makeFileForName demo_storage " my show" ∈ files.
Proof.
  assert ({| os.Name := storage.ID (storage.makeFileForName demo_storage " my show")
                        +:+ storage.fileDataExt;
             os.IsDir := true |}
          ∈ (concat [[ {| os.Name := "default"; os.IsDir := false |};
                       {| os.Name := "my_20_show.protostream";
                          os.IsDir := true |} ]] ++ [])%list) as Hin.
  { vm_compute. apply list_elem_of_further, list_elem_of_here. }
  split; [exact Hin|].
  apply (ListFiles_finds_written_name demo_storage (λ _, inl "my show")
           " my show" _ [] [] Hin).
  reflexivity.
Defined.

(** * Further properties of the device list *)

Lemma three_way_Z : three_way Z.compare.
Proof.
  split; [|split].
  - intros a b. apply Z.compare_eq_iff.
  - intros a b. apply Z.compare_antisym.
  - intros a b d. rewrite !Z.compare_lt_iff. lia.
Qed.

Lemma three_way_string : three_way String.compare.
Proof.
  split; [|split].
  - apply OrderedTypeEx.String_as_OT.cmp_eq.
  - apply OrderedTypeEx.String_as_OT.cmp_antisym.
  - intros a b d H1 H2.
    apply OrderedTypeEx.String_as_OT.cmp_lt.
    apply OrderedTypeEx.String_as_OT.cmp_lt in H1, H2.
    by eapply OrderedTypeEx.String_as_OT.lt_trans.
Qed.

Lemma three_way_lex {A B} (c1 : A → A → comparison) (c2 : B → B → comparison) :
  three_way c1 → three_way c2 → three_way (lex c1 c2).
Proof.
  intros (E1 & A1 & T1) (E2 & A2 & T2). unfold lex. split; [|split].
  - intros [a1 a2] [b1 b2]. simpl.
    destruct (c1 a1 b1) eqn:H1.
    + apply E1 in H1 as ->. rewrite E2. split; [by intros ->|by intros [=]].
    + split; [done|]. intros [= -> ->].
      assert (c1 b1 b1 = Eq) as H by by apply E1. congruence.
    + split; [done|]. intros [= -> ->].
      assert (c1 b1 b1 = Eq) as H by by apply E1. congruence.
  - intros [a1 a2] [b1 b2]. simpl. rewrite (A1 a1 b1).
    destruct (c1 b1 a1); simpl; [apply A2|done..].
  - intros [a1 a2] [b1 b2] [d1 d2]. simpl.
    destruct (c1 a1 b1) eqn:H1; [|intros _|done].
    + apply E1 in H1 as ->. destruct (c1 b1 d1); [apply T2|done..].
    + destruct (c1 b1 d1) eqn:H2; [|intros _|done].
      * apply E1 in H2 as ->. by rewrite H1.
      * by rewrite (T1 _ _ _ H1 H2).
Qed.

Lemma three_way_keys : three_way compare_keys.
Proof.
  unfold compare_keys.
  repeat apply three_way_lex; auto using three_way_Z, three_way_string.
Qed.

Lemma Devices_less_compare (di dj : web.DeviceInfo) :
  Devices_less di dj = true ↔ compare_keys (sort_key di) (sort_key dj) = Lt.
Proof.
  unfold Devices_less, compare_keys, sort_key, lex, string_less, String.ltb,
    Z.ltb, Z.gtb. simpl.
  destruct (web.Group di ?= web.Group dj)%Z; [|done..].
  destruct (web.Controller di ?= web.Controller dj)%Z; [|done..].
  rewrite (String.compare_antisym (web.Type_ dj) (web.Type_ di)).
  destruct (String.compare (web.Type_ di) (web.Type_ dj)); simpl; [|done..].
  rewrite (String.compare_antisym (web.ProxiedID dj) (web.ProxiedID di)).
  destruct (String.compare (web.ProxiedID di) (web.ProxiedID dj)); simpl;
    [|done..].
  by destruct (String.compare (web.ID di) (web.ID dj)).
Qed.

(** X21.  The comparison [Devices] sorts with is a strict total order on
    (Group, Controller, Type, ProxiedID, ID): it is irreflexive, asymmetric
    and transitive, and two devices that it does not order either way agree
    on all five fields. *)
Theorem Devices_less_strict_total_order :
  (∀ d, Devices_less d d = false)
  ∧ (∀ a b, Devices_less a b = true → Devices_less b a = false)
  ∧ (∀ a b c, Devices_less a b = true → Devices_less b c = true →
              Devices_less a c = true)
  ∧ (∀ a b, Devices_less a b = false → Devices_less b a = false →
            sort_key a = sort_key b).
Proof.
  destruct three_way_keys as (HE & HA & HT).
  assert (∀ a b, Devices_less a b = false
                 ↔ compare_keys (sort_key a) (sort_key b) ≠ Lt) as Hf.
  { intros a b. rewrite <- Devices_less_compare.
    by destruct (Devices_less a b). }
  split; [|split; [|split]].
  - intros d. apply Hf. by rewrite (proj2 (HE _ _) eq_refl).
  - intros a b Hab%Devices_less_compare. apply Hf.
    rewrite HA, Hab. done.
  - intros a b c Hab%Devices_less_compare Hbc%Devices_less_compare.
    apply Devices_less_compare. by eapply HT.
  - intros a b Hab%Hf Hba%Hf. apply HE.
    rewrite HA in Hab.
    destruct (compare_keys (sort_key b) (sort_key a)) eqn:H; simpl in *;
      try done.
    rewrite HA, H. done.
Qed.

(** * Further properties of the discovery filter *)





(** * Further properties of the site *)

Lemma SplitN2_first (root rest : string) :
  no_slash root = true →
  web.SplitN2 (root +:+ "/" +:+ rest) = (root, Some rest)
  ∧ web.SplitN2 root = (root, None).
Proof.
  unfold no_slash. induction root as [|c root IH]; intros H; simpl in H.
  - done.
  - apply andb_true_iff in H as [Hc H]. apply negb_true_iff in Hc.
    rewrite string_app_cons. cbn [web.SplitN2]. rewrite Hc.
    destruct (IH H) as [-> ->]. done.
Qed.

(** X23.  [getContent] takes the path element before the first slash as
    the root and hands everything after that slash to the root's loader
    as it is, further slashes and dot elements included; a name without a
    slash loads the empty name from the root of that name. *)
Theorem getContent_splits_once (Roots : gmap string web.AssetLoader)
    (root rest : string) :
  no_slash root = true →
  web.getContent Roots (root +:+ "/" +:+ rest)
  = match Roots !! root with
    | None => (None, Some (web.NoRoot root))
    | Some al => ((al rest).1, web.LoadErr <$> (al rest).2)
    end
  ∧ web.getContent Roots root
    = match Roots !! root with
      | None => (None, Some (web.NoRoot root))
      | Some al => ((al "").1, web.LoadErr <$> (al "").2)
      end.
Proof.
  intros H. destruct (SplitN2_first root rest H) as [H1 H2].
  unfold web.getContent. rewrite H1, H2. simpl.
  destruct (Roots !! root) as [al|]; [|done].
  by destruct (al rest), (al "").
Qed.

Lemma getContent_splits_once_witness :
  let echo : web.AssetLoader := λ name, (Some name, None) in
  no_slash "static" = true
  ∧ web.getContent {[ "static" := echo ]} "static/../css/site.css"
    = (Some "../css/site.css", None).
Proof.
  split; [reflexivity|].
  refine (eq_trans
            (proj1 (getContent_splits_once
                      {[ "static" := λ name, (Some name, None) ]}
                      "static" "../css/site.css" _)) _);
    reflexivity.
Defined.

(** * Further properties of the monitoring middleware *)





